(** * kube-burner-ocp, workers-scale: a shallow embedding and its properties

    The development embeds four pieces of the repository:
    - [adjustMachineSets] (Go), which spreads a number of additional
      replicas over the machine sets, grouped by replica count;
    - [waitForNodes] and [isNodeReady] (Go), the node readiness poller;
    - the retry loop of the virt check script (bash);
    - [OrchestrateWorkload] (Go), the sequencing of a workers-scale run.

    Go's [int] is taken at its 64-bit width and its wrap-around is written
    out; Go's run-time panics (index and slice bounds) are results of the
    model. *)

From Stdlib Require Import ZArith Lia.
From stdpp Require Import gmap strings list fin_maps sorting pretty.

Local Open Scope Z_scope.

(** ** Go values *)

Definition MaxInt : Z := 2 ^ 63 - 1.
Definition MinInt : Z := - 2 ^ 63.

(** Two's complement wrap-around of Go's 64-bit [int]. *)
Definition int_wrap (z : Z) : Z := (z + 2 ^ 63) mod 2 ^ 64 - 2 ^ 63.

Definition int_add (a b : Z) : Z := int_wrap (a + b).
Definition int_sub (a b : Z) : Z := int_wrap (a - b).

(** What a Go function body can do: return, or panic at run time. The loop
    of the model is driven by fuel; [OutOfFuel] is not a behaviour of the
    program. *)
Inductive result (A : Type) : Type :=
| Ok (a : A)
| Panic (msg : string)
| OutOfFuel.
Arguments Ok {A} a.
Arguments Panic {A} msg.
Arguments OutOfFuel {A}.

#[global] Instance result_ret : MRet result := fun A a => Ok a.

#[global] Instance result_bind : MBind result := fun A B k r =>
  match r with
  | Ok a => k a
  | Panic msg => Panic msg
  | OutOfFuel => OutOfFuel
  end.

(** ** The replica balancer, [adjustMachineSets] *)

(** The fields of [MachineSetInfo] that [adjustMachineSets] writes. *)
Record MachineSetInfo : Type := mkMachineSetInfo {
  prevReplicas : Z;
  currentReplicas : Z
}.

(** One increment of the pass, that is one execution of the body of
    [if desiredWorkerCount > 0], kept as ghost state: the machine set that
    was incremented, the level [value] it was at, and the plan at the end
    of the body. The body calls [Store] once, and twice on the first
    increment of a machine set, with the same plan after both calls. The
    program does not read the history. *)
Record Increment : Type := mkIncrement {
  inc_machineSet : string;
  inc_value : Z;
  inc_plan : gmap string MachineSetInfo
}.

(** The variables of [adjustMachineSets] that live across iterations. *)
Record Pass : Type := mkPass {
  machineSetsToEdit : gmap string MachineSetInfo;
  machineSetReplicas : gmap Z (list string);
  desiredWorkerCount : Z;
  lastIndex : Z;
  keys : list Z;
  history : list Increment
}.

(** [machineSetReplicas[k]] read as Go reads a missing key: the nil slice. *)
Definition group (m : gmap Z (list string)) (k : Z) : list string :=
  default [] (m !! k).

(** The body of [if desiredWorkerCount > 0 { ... }] in the range loop. *)
Definition increment (value : Z) (index : nat) (machineSet : string)
    (st : Pass) : Pass :=
  let plan0 := machineSetsToEdit st in
  (* if _, exists := machineSetsToEdit.Load(machineSet); !exists { Store } *)
  let plan1 :=
    match plan0 !! machineSet with
    | Some _ => plan0
    | None =>
        <[machineSet := {| prevReplicas := value;
                           currentReplicas := int_add value 1 |}]> plan0
    end in
  (* msInfo.currentReplicas = value + 1; Store(machineSet, msInfo) *)
  let plan2 :=
    match plan1 !! machineSet with
    | Some msInfo =>
        <[machineSet := {| prevReplicas := prevReplicas msInfo;
                           currentReplicas := int_add value 1 |}]> plan1
    | None => plan1
    end in
  {| machineSetsToEdit := plan2;
     machineSetReplicas :=
       <[int_add value 1 :=
           group (machineSetReplicas st) (int_add value 1) ++ [machineSet]]>
         (machineSetReplicas st);
     desiredWorkerCount := int_sub (desiredWorkerCount st) 1;
     lastIndex := Z.of_nat index;
     keys := keys st;
     history := history st ++ [mkIncrement machineSet value plan2] |}.

(** [for index, machineSet := range machineSets { ... }]; the second
    component is [modified]. *)
Fixpoint range_machineSets (value : Z) (machineSets : list string)
    (index : nat) (st : Pass) (modified : bool) : Pass * bool :=
  match machineSets with
  | [] => (st, modified)
  | machineSet :: rest =>
      if 0 <? desiredWorkerCount st
      then range_machineSets value rest (S index)
             (increment value index machineSet st) true
      else (st, modified)
  end.

Definition set_groups (g : gmap Z (list string)) (st : Pass) : Pass :=
  {| machineSetsToEdit := machineSetsToEdit st;
     machineSetReplicas := g;
     desiredWorkerCount := desiredWorkerCount st;
     lastIndex := lastIndex st;
     keys := keys st;
     history := history st |}.

Definition set_keys (ks : list Z) (st : Pass) : Pass :=
  {| machineSetsToEdit := machineSetsToEdit st;
     machineSetReplicas := machineSetReplicas st;
     desiredWorkerCount := desiredWorkerCount st;
     lastIndex := lastIndex st;
     keys := ks;
     history := history st |}.

(** [if machineSets, exists := machineSetReplicas[value]; exists { ... }]:
    the range loop, then the removal of the visited machine sets from the
    group. [machineSets[lastIndex+1:]] panics when [lastIndex+1] exceeds the
    length. The slice it leaves shares its array with [machineSets], but
    every path through that assignment leaves the loop before any group is
    read again. *)
Definition visit_group (value : Z) (st : Pass) : result (Pass * bool) :=
  match machineSetReplicas st !! value with
  | Some machineSets =>
      let '(st1, modified) := range_machineSets value machineSets 0 st false in
      if lastIndex st1 =? Z.of_nat (length machineSets) - 1
      then Ok (set_groups (delete value (machineSetReplicas st1)) st1, modified)
      else if lastIndex st1 + 1 <=? Z.of_nat (length machineSets)
      then Ok (set_groups
                 (<[value := drop (Z.to_nat (lastIndex st1 + 1)) machineSets]>
                    (machineSetReplicas st1)) st1, modified)
      else Panic "slice bounds out of range"
  | None => Ok (st, false)
  end.

(** [modified && (index == len(keys)-1) || (value+1 != keys[index+1])]:
    [&&] binds tighter than [||], and [keys[index+1]] is read whenever the
    left operand is false. *)
Definition insert_condition (modified : bool) (index : nat) (value : Z)
    (ks : list Z) : result bool :=
  if modified && (Z.of_nat index =? Z.of_nat (length ks) - 1)
  then Ok true
  else match ks !! S index with
       | Some next => Ok (negb (int_add value 1 =? next))
       | None => Panic "index out of range"
       end.

(** The end of an iteration: the insertion of [value+1] after [index] in
    [keys], and [if desiredWorkerCount <= 0 { break }]; the boolean tells
    whether the iteration ends in [break]. *)
Definition update_keys (modified : bool) (index : nat) (value : Z)
    (st : Pass) : result (Pass * bool) :=
  ins ← insert_condition modified index value (keys st);
  let st' :=
    if (ins : bool)
    then set_keys (take (S index) (keys st)
                     ++ [int_add value 1] ++ drop (S index) (keys st)) st
    else st in
  Ok (st', desiredWorkerCount st' <=? 0).

(** One iteration of [for index < len(keys)]. *)
Definition iteration (index : nat) (st : Pass) : result (Pass * bool) :=
  match keys st !! index with
  | None => Panic "index out of range"
  | Some value =>
      '(st1, modified) ← visit_group value st;
      update_keys modified index value st1
  end.

Fixpoint loop (fuel : nat) (index : nat) (st : Pass) : result Pass :=
  match fuel with
  | O => OutOfFuel
  | S fuel' =>
      if (index <? length (keys st))%nat
      then '(st1, stop) ← iteration index st;
           if (stop : bool) then Ok st1 else loop fuel' (S index) st1
      else Ok st
  end.

(** [keys] after [sort.Ints]: the keys of the map in ascending order. *)
Definition sorted_keys (m : gmap Z (list string)) : list Z :=
  merge_sort Z.le (elements (dom m)).

Definition init_pass (machineSetReplicas0 : gmap Z (list string))
    (desiredWorkerCount0 : Z) : Pass :=
  {| machineSetsToEdit := ∅;
     machineSetReplicas := machineSetReplicas0;
     desiredWorkerCount := desiredWorkerCount0;
     lastIndex := 0;
     keys := sorted_keys machineSetReplicas0;
     history := [] |}.

(** The whole pass. Every iteration but the last takes at least one unit
    off a positive [desiredWorkerCount], hence the fuel. *)
Definition run_pass (machineSetReplicas0 : gmap Z (list string))
    (desiredWorkerCount0 : Z) : result Pass :=
  loop (S (Z.to_nat desiredWorkerCount0)) 0
    (init_pass machineSetReplicas0 desiredWorkerCount0).

(** [adjustMachineSets]: the plan that the pass returns. The machine client
    argument is not used by the function. *)
Definition adjustMachineSets (machineSetReplicas0 : gmap Z (list string))
    (desiredWorkerCount0 : Z) : result (gmap string MachineSetInfo) :=
  st ← run_pass machineSetReplicas0 desiredWorkerCount0;
  Ok (machineSetsToEdit st).

(** *** Vocabulary of the balancer's properties *)

(** [sum(currentReplicas - previousReplicas)] over the plan. *)
Definition plan_sum (plan : gmap string MachineSetInfo) : Z :=
  map_fold (λ _ info acc, acc + (currentReplicas info - prevReplicas info))
    0 plan.

(** The names of all machine sets of a grouping. *)
Definition pool_names (g : gmap Z (list string)) : list string :=
  concat (snd <$> map_to_list g).

(** A grouping as the inventory reader builds it: every key has at least one
    machine set, and a machine set is listed once, under its replica
    count. *)
Definition grouping (g : gmap Z (list string)) : Prop :=
  map_Forall (λ _ l, l ≠ []) g ∧ NoDup (pool_names g).

(** The replica counts and the requested count are Go [int]s, and adding the
    requested count to a replica count does not overflow. *)
Definition fits_int (g : gmap Z (list string)) (d : Z) : Prop :=
  (MinInt ≤ d ≤ MaxInt) ∧
  map_Forall (λ k _, MinInt ≤ k ∧ k + Z.max d 0 ≤ MaxInt) g.

#[global] Instance grouping_dec g : Decision (grouping g).
Proof. unfold grouping. apply _. Defined.

#[global] Instance fits_int_dec g d : Decision (fits_int g d).
Proof. unfold fits_int. apply _. Defined.

(** The replica count of [p] when the plan is [plan]: [currentReplicas] when
    the plan has it, else the key of its group in [g0]. *)
Definition level (g0 : gmap Z (list string))
    (plan : gmap string MachineSetInfo) (p : string) (k : Z) : Prop :=
  match plan !! p with
  | Some info => currentReplicas info = k
  | None => p ∈ group g0 k
  end.

(** The plan before the first store is empty; then it is the last snapshot. *)
Definition last_plan (h : list Increment) : gmap string MachineSetInfo :=
  match last h with
  | Some e => inc_plan e
  | None => ∅
  end.

(** The history records the pass: every increment is of a machine set at
    the level [inc_value], and its snapshot is the plan before it with the
    entry of that machine set stored. *)
Definition recorded (g0 : gmap Z (list string)) (h : list Increment) : Prop :=
  ∀ h1 e h2, h = h1 ++ e :: h2 →
    level g0 (last_plan h1) (inc_machineSet e) (inc_value e) ∧
    ∃ info, inc_plan e = <[inc_machineSet e := info]> (last_plan h1).

(** No machine set gets a second increment while a machine set that started
    strictly below its level has had none. *)
Definition leveled (g0 : gmap Z (list string)) (h : list Increment) : Prop :=
  ∀ h1 e h2, h = h1 ++ e :: h2 →
    inc_machineSet e ∈ (inc_machineSet <$> h1) →
    ∀ q k, q ∈ group g0 k → k < inc_value e →
      q ∈ (inc_machineSet <$> h1).

(** The entries of [plan] are kept by the store [e]: same [prevReplicas],
    [currentReplicas] not smaller, and larger for the machine set that [e]
    stores. *)
Definition kept_by (plan : gmap string MachineSetInfo) (e : Increment) : Prop :=
  ∀ p a, plan !! p = Some a →
    ∃ b, inc_plan e !! p = Some b ∧
         prevReplicas b = prevReplicas a ∧
         currentReplicas a ≤ currentReplicas b ∧
         (inc_machineSet e = p → currentReplicas a < currentReplicas b).

Definition monotone (h : list Increment) : Prop :=
  ∀ h1 e1 h2 e2 h3, h = h1 ++ e1 :: h2 ++ e2 :: h3 →
    kept_by (inc_plan e1) e2.

(** The replica count of a machine set once the plan is applied. *)
Definition final_replicas (plan : gmap string MachineSetInfo) (start : Z)
    (p : string) : Z :=
  match plan !! p with
  | Some info => currentReplicas info
  | None => start
  end.

(** Any two machine sets of the fleet end at most one replica apart. *)
Definition skew_bounded (g0 : gmap Z (list string))
    (plan : gmap string MachineSetInfo) : Prop :=
  ∀ p kp q kq, p ∈ group g0 kp → q ∈ group g0 kq →
    Z.abs (final_replicas plan kp p - final_replicas plan kq q) ≤ 1.

(** No machine set of the plan ends more than one replica above any machine
    set of the fleet. *)
Definition skew_bounded_above (g0 : gmap Z (list string))
    (plan : gmap string MachineSetInfo) : Prop :=
  ∀ p info q kq, plan !! p = Some info → q ∈ group g0 kq →
    currentReplicas info ≤ final_replicas plan kq q + 1.

Definition scenarioA : gmap Z (list string) := {[ 2 := ["A"; "B"]%string ]}.

Definition planA : gmap string MachineSetInfo :=
  <["A"%string := mkMachineSetInfo 2 4]>
    (<["B"%string := mkMachineSetInfo 2 3]> ∅).

Definition one_level : gmap Z (list string) := {[ 2 := ["A"]%string ]}.

Definition two_at_three : gmap Z (list string) :=
  {[ 3 := ["A"; "B"]%string ]}.

Definition far_apart : gmap Z (list string) :=
  <[1 := ["A"]%string]> {[ 10 := ["B"]%string ]}.

Definition far_plan : gmap string MachineSetInfo :=
  {[ "A"%string := mkMachineSetInfo 1 2 ]}.

(** *** Invariants of the pass *)

(** The entry that [increment] stores for a machine set whose entry was
    [old]. *)
Definition stored (value : Z) (old : option MachineSetInfo) : MachineSetInfo :=
  {| prevReplicas := match old with
                     | Some a => prevReplicas a
                     | None => value
                     end;
     currentReplicas := int_add value 1 |}.

(** Every entry of the first plan is in the second, with the same
    [prevReplicas] and a [currentReplicas] that is not smaller. *)
Definition plan_le (plan1 plan2 : gmap string MachineSetInfo) : Prop :=
  ∀ p a, plan1 !! p = Some a →
    ∃ b, plan2 !! p = Some b ∧
         prevReplicas b = prevReplicas a ∧
         currentReplicas a ≤ currentReplicas b.

(** [leveled] without its premise on the incremented machine set. *)
Definition leveled_all (g0 : gmap Z (list string)) (h : list Increment)
    : Prop :=
  ∀ h1 e h2, h = h1 ++ e :: h2 →
    ∀ q k, q ∈ group g0 k → k < inc_value e → q ∈ (inc_machineSet <$> h1).

(** What the history and the plan have to do with each other. *)
Record History (g0 : gmap Z (list string))
    (plan : gmap string MachineSetInfo) (h : list Increment) : Prop := {
  h_names : ∀ p, p ∈ (inc_machineSet <$> h) ↔ is_Some (plan !! p);
  h_last : last_plan h = plan;
  h_recorded : recorded g0 h;
  h_leveled : leveled_all g0 h;
  h_monotone : monotone h;
  h_kept : ∀ e, e ∈ h → plan_le (inc_plan e) plan
}.

(** The invariant of the range loop of the iteration that visits the key
    [value]: [visited] and [rest] are the keys before and after it, [served]
    the machine sets of the group that have been incremented and [todo]
    those that have not. *)
Record Mid (g0 : gmap Z (list string)) (d0 : Z) (visited : list Z)
    (value : Z) (rest : list Z) (served todo : list string) (st : Pass)
    : Prop := {
  mid_keys : keys st = visited ++ value :: rest;
  mid_sorted : StronglySorted Z.lt (value :: rest);
  mid_dom : ∀ k, is_Some (machineSetReplicas st !! k) ↔
                 k ∈ value :: rest ∨ (k = value + 1 ∧ served ≠ []);
  mid_here : machineSetReplicas st !! value = Some (served ++ todo);
  mid_lists : ∀ k l, machineSetReplicas st !! k = Some l → l ≠ [] ∧ NoDup l;
  mid_level : ∀ k p, p ∈ group (machineSetReplicas st) k ↔
                     level g0 (machineSetsToEdit st) p k ∨
                     (k = value ∧ p ∈ served);
  mid_plan : ∀ p info, machineSetsToEdit st !! p = Some info →
               p ∈ group g0 (prevReplicas info) ∧
               (p ∉ served → currentReplicas info = value) ∧
               (p ∈ served → currentReplicas info = value + 1);
  mid_done : ∀ p, p ∈ served → is_Some (machineSetsToEdit st !! p);
  mid_sum : plan_sum (machineSetsToEdit st) = d0 - desiredWorkerCount st;
  mid_count : 0 ≤ desiredWorkerCount st ≤ MaxInt;
  mid_range : ∀ k, k ∈ value :: rest →
                MinInt ≤ k ∧
                k + desiredWorkerCount st + Z.of_nat (length served) ≤ MaxInt;
  mid_last : served ≠ [] → lastIndex st = Z.of_nat (length served) - 1;
  mid_history : History g0 (machineSetsToEdit st) (history st)
}.

(** What holds of the pass that has spent a positive requested count. *)
Record Post (g0 : gmap Z (list string)) (d0 : Z) (st : Pass) : Prop := {
  post_sum : plan_sum (machineSetsToEdit st) = d0;
  post_count : desiredWorkerCount st = 0;
  post_history : History g0 (machineSetsToEdit st) (history st);
  post_prev : ∀ p info, machineSetsToEdit st !! p = Some info →
                p ∈ group g0 (prevReplicas info);
  post_levels : ∃ value,
      (∀ p info, machineSetsToEdit st !! p = Some info →
         value ≤ currentReplicas info ≤ value + 1) ∧
      (∀ q k, q ∈ group g0 k → machineSetsToEdit st !! q = None → value ≤ k)
}.

(** ** The node readiness poller, [waitForNodes] *)

Record NodeCondition : Type := mkNodeCondition {
  cond_Type : string;
  cond_Status : string
}.

Record Node : Type := mkNode {
  node_Name : string;
  node_Conditions : list NodeCondition
}.

(** [v1.NodeReady] and [v1.ConditionTrue] of the Kubernetes API. *)
Definition NodeReady : string := "Ready".
Definition ConditionTrue : string := "True".

(** [for _, condition := range node.Status.Conditions { ... }]. *)
Fixpoint any_ready_condition (conditions : list NodeCondition) : bool :=
  match conditions with
  | [] => false
  | condition :: rest =>
      if String.eqb (cond_Type condition) NodeReady
         && String.eqb (cond_Status condition) ConditionTrue
      then true
      else any_ready_condition rest
  end.

Definition isNodeReady (node : Node) : bool :=
  any_ready_condition (node_Conditions node).

(** What [Nodes().List] answers: the items, or an error. *)
Inductive NodeList : Type :=
| Listed (items : list Node)
| ListFailed (err : string).

(** [for _, node := range nodes.Items { if !isNodeReady(&node) { return
    false, nil } }; return true, nil]. *)
Fixpoint all_ready (items : list Node) : bool :=
  match items with
  | [] => true
  | node :: rest => if negb (isNodeReady node) then false else all_ready rest
  end.

(** The condition function that [waitForNodes] hands to the poller: [(done,
    err)] from one answer of the node API. *)
Definition nodes_condition (answer : NodeList) : bool * option string :=
  match answer with
  | ListFailed err => (false, Some err)
  | Listed items => (all_ready items, None)
  end.

(** The error a poll returns; [nil] is [None]. *)
Inductive PollError : Type :=
| DeadlineExceeded
| ConditionError (err : string).

(** Modelled from the spec: the ticks of [wait.PollUntilContextTimeout], a
    function of the Kubernetes client library that is not part of the
    sources. "Re-checks every interval until every node's readiness
    condition is true (success) or timeout elapses (failure: Timeout). A
    query failure while listing nodes aborts immediately". [ticks] is the
    number of interval ticks that fire before the deadline, [call] the
    number of checks made so far, and [condition n] the outcome of check
    number [n]. The result is the error and the number of checks made. *)
Fixpoint poll_ticks (condition : nat -> bool * option string)
    (ticks : nat) (call : nat) : option PollError * nat :=
  match ticks with
  | O => (Some DeadlineExceeded, call)
  | S ticks' =>
      match condition call with
      | (_, Some err) => (Some (ConditionError err), S call)
      | (true, None) => (None, S call)
      | (false, None) => poll_ticks condition ticks' (S call)
      end
  end.

(** Modelled from the spec: [wait.PollUntilContextTimeout], which "fires an
    immediate first check" when [immediate] is set, before the first tick
    and whatever the timeout. *)
Definition PollUntilContextTimeout (ticks : nat) (immediate : bool)
    (condition : nat -> bool * option string) : option PollError * nat :=
  if immediate
  then match condition O with
       | (_, Some err) => (Some (ConditionError err), 1%nat)
       | (true, None) => (None, 1%nat)
       | (false, None) => poll_ticks condition ticks 1
       end
  else poll_ticks condition ticks 0.

(** [waitForNodes]: [api n] is the answer of the node API to the list call
    number [n], and [ticks] is [maxWaitTimeout] counted in ticks of
    [time.Second]. *)
Definition waitForNodes (api : nat -> NodeList) (ticks : nat)
    : option PollError * nat :=
  PollUntilContextTimeout ticks true (λ n, nodes_condition (api n)).

(** A check that finds every listed node ready, and one that finds a node
    that is not. *)
Definition ready_at (api : nat -> NodeList) (n : nat) : Prop :=
  ∃ items, api n = Listed items ∧ ∀ node, node ∈ items → isNodeReady node = true.

Definition unready_at (api : nat -> NodeList) (n : nat) : Prop :=
  ∃ items, api n = Listed items ∧ ∃ node, node ∈ items ∧ isNodeReady node = false.

(** Scenario B of the spec: two nodes, the second ready from the third tick
    on. *)
Definition ready_node (name : string) : Node :=
  mkNode name [mkNodeCondition "MemoryPressure" "False";
               mkNodeCondition "Ready" "True"].

Definition unready_node (name : string) : Node :=
  mkNode name [mkNodeCondition "Ready" "False"].

Definition scenarioB (n : nat) : NodeList :=
  Listed [ready_node "node-1";
          if (3 <=? n)%nat then ready_node "node-2" else unready_node "node-2"].

(** The wording of the spec for a timeout, "at least one node never
    observed ready": the check number [i] finds the node [name] ready, and
    a node that the checks within the timeout list and never find ready. *)
Definition observed_ready (api : nat -> NodeList) (i : nat) (name : string)
    : Prop :=
  ∃ items node, api i = Listed items ∧ node ∈ items ∧
                node_Name node = name ∧ isNodeReady node = true.

Definition listed_at (api : nat -> NodeList) (i : nat) (name : string)
    : Prop :=
  ∃ items node, api i = Listed items ∧ node ∈ items ∧ node_Name node = name.

Definition never_observed_ready (api : nat -> NodeList) (ticks : nat)
    (name : string) : Prop :=
  (∃ i, (i ≤ ticks)%nat ∧ listed_at api i name) ∧
  ∀ i, (i ≤ ticks)%nat → ¬ observed_ready api i name.

(** Two nodes that are ready in turn, never at the same check. *)
Definition alternating (n : nat) : NodeList :=
  if Nat.even n
  then Listed [ready_node "node-1"; unready_node "node-2"]
  else Listed [unready_node "node-1"; ready_node "node-2"].

(** ** The retry loop of the check script *)

Definition MAX_RETRIES : nat := 126.
Definition WAIT_TIMES : list nat := [1; 2; 3; 5; 10; 20; 30]%nat.

(** The variables of the loop over the attempts of one VM, with the sleeps
    made and the number of calls of the command as ghost state. *)
Record Retry : Type := mkRetry {
  counter : nat;
  slept : list nat;
  calls : nat
}.

(** How the loop over the attempts ends: [break], [exit 1], or the list of
    attempts runs out. *)
Inductive LoopEnd : Type :=
| Break
| Exit1
| RanOut.

(** [wait_time]: [WAIT_TIMES[$counter]] while the counter is below the
    length of the array, then [WAIT_TIMES[-1]]. *)
Definition wait_time (wait_times : list nat) (counter : nat) : nat :=
  if (counter <? length wait_times)%nat
  then nth counter wait_times O
  else List.last wait_times O.

(** [for attempt in $(seq 1 $MAX_RETRIES); do ... done] for one VM;
    [command n] is the exit status, as a boolean, of the call number [n] of
    [${COMMAND} "${vm}"]. *)
Fixpoint attempts_loop (max_retries : nat) (wait_times : list nat)
    (command : nat -> bool) (attempts : list nat) (st : Retry)
    : LoopEnd * Retry :=
  match attempts with
  | [] => (RanOut, st)
  | attempt :: rest =>
      let st1 := mkRetry (counter st) (slept st) (S (calls st)) in
      if command (calls st)
      then (Break, st1)
      else if (attempt <? max_retries)%nat
      then attempts_loop max_retries wait_times command rest
             (mkRetry (S (counter st1))
                (slept st1 ++ [wait_time wait_times (counter st1)])
                (calls st1))
      else (Exit1, st1)
  end.

(** The body of [for vm in ${VMS}], with [counter=0]. *)
Definition retry (max_retries : nat) (wait_times : list nat)
    (command : nat -> bool) : LoopEnd * Retry :=
  attempts_loop max_retries wait_times command (seq 1 max_retries)
    (mkRetry 0 [] 0).

Definition retry_vm (command : nat -> bool) : LoopEnd * Retry :=
  retry MAX_RETRIES WAIT_TIMES command.

(** [for vm in ${VMS}]: the exit status of the script and the seconds slept
    for each VM that was checked. *)
Fixpoint check_vms (command : string -> nat -> bool) (vms : list string)
    : nat * list (list nat) :=
  match vms with
  | [] => (0%nat, [])
  | vm :: rest =>
      match retry_vm (command vm) with
      | (Exit1, st) => (1%nat, [slept st])
      | (_, st) =>
          let '(status, sleeps) := check_vms command rest in
          (status, slept st :: sleeps)
      end
  end.

(** [backoff[min(i, len(backoff)-1)]]. *)
Definition backoff_at (backoff : list nat) (i : nat) : nat :=
  nth (i `min` (length backoff - 1))%nat backoff O.

Definition total_sleep (st : Retry) : nat := sum_list (slept st).

(** A command that fails on its first [k] calls and succeeds on the next. *)
Definition fails_then_succeeds (command : nat -> bool) (k : nat) : Prop :=
  (∀ i, (i < k)%nat → command i = false) ∧ command k = true.

(** ** The orchestrator, [OrchestrateWorkload] *)

Record ScaleConfig : Type := mkScaleConfig {
  AdditionalWorkerNodes : Z;
  GC : bool;
  Indexer : string
}.

Section Orchestrator.
(** What [getMachines] returns, a map of machine details. *)
Variable MachineDetails : Type.

(** What the collaborators of one run answer. *)
Record Collaborators : Type := mkCollaborators {
  machineSetDetails : gmap Z (list string);
  prevMachineDetails : MachineDetails;
  scaledMachineDetails : MachineDetails;
  amiID : string;
  measurementsStop : option string
}.

(** The calls that a run makes, in order. *)
Inductive Event : Type :=
| GetMachineSets
| GetMachines
| SetupMetrics
| MeasurementsStart
| MeasurementsStop
| LogInfo (msg : string)
| LogError (msg : string)
| EditMachineSets (plan : gmap string MachineSetInfo) (isScaleUp : bool)
| DiscardPreviousMachines (prev scaled : MachineDetails)
| FinalizeMetrics (plan : gmap string MachineSetInfo)
    (scaled : MachineDetails) (indexer : string) (ami : string).

(** Lines 44 to 46: [measurements.Stop()] and the log of its error. *)
Definition stop_measurements (err : option string) : list Event :=
  MeasurementsStop ::
  match err with
  | Some msg => [LogError msg]
  | None => []
  end.

(** Lines 47 to 53. *)
Definition after_stop (c : Collaborators) (scaleConfig : ScaleConfig)
    (machineSetsToEdit : gmap string MachineSetInfo) : list Event :=
  [GetMachines;
   DiscardPreviousMachines (prevMachineDetails c) (scaledMachineDetails c);
   FinalizeMetrics machineSetsToEdit (scaledMachineDetails c)
     (Indexer scaleConfig) (amiID c)]
  ++ (if GC scaleConfig
      then [LogInfo "Restoring machine sets to previous state";
            EditMachineSets machineSetsToEdit false]
      else []).

(** Lines 37 to 53 of [OrchestrateWorkload], the run once the machine
    client is at hand: its calls, or the panic of [adjustMachineSets]. The
    collaborators are taken to return. The whole method, with the creation
    of the client at line 36, is [AWSScenario_OrchestrateWorkload] below. *)
Definition OrchestrateWorkload (c : Collaborators)
    (scaleConfig : ScaleConfig) : result (list Event) :=
  machineSetsToEdit ←
    adjustMachineSets (machineSetDetails c)
      (AdditionalWorkerNodes scaleConfig);
  Ok ([GetMachineSets; GetMachines; SetupMetrics; MeasurementsStart]
      ++ [LogInfo "Updating machinessets evenly to reach desired count";
          EditMachineSets machineSetsToEdit true]
      ++ stop_measurements (measurementsStop c)
      ++ after_stop c scaleConfig machineSetsToEdit).

Definition with_stop (c : Collaborators) (err : option string)
    : Collaborators :=
  mkCollaborators (machineSetDetails c) (prevMachineDetails c)
    (scaledMachineDetails c) (amiID c) err.
End Orchestrator.

Arguments machineSetDetails {MachineDetails} c.
Arguments measurementsStop {MachineDetails} c.
Arguments GetMachineSets {MachineDetails}.
Arguments GetMachines {MachineDetails}.
Arguments SetupMetrics {MachineDetails}.
Arguments MeasurementsStart {MachineDetails}.
Arguments MeasurementsStop {MachineDetails}.
Arguments LogInfo {MachineDetails} msg.
Arguments LogError {MachineDetails} msg.
Arguments EditMachineSets {MachineDetails} plan isScaleUp.
Arguments stop_measurements {MachineDetails} err.
Arguments after_stop {MachineDetails} c scaleConfig machineSetsToEdit.
Arguments OrchestrateWorkload {MachineDetails} c scaleConfig.
Arguments with_stop {MachineDetails} c err.

(** ** Further vocabulary of the balancer *)

(** The number of increments of the machine set [p] in a history. *)
Definition increments_of (p : string) (h : list Increment) : nat :=
  length (filter (λ e, inc_machineSet e = p) h).

(** The plan and the history agree on every machine set: the plan has an
    entry exactly for the machine sets that were incremented, and the entry
    has grown by the number of increments. *)
Definition counted (plan : gmap string MachineSetInfo) (h : list Increment)
    : Prop :=
  ∀ p,
    match plan !! p with
    | Some info =>
        (1 ≤ increments_of p h)%nat ∧
        currentReplicas info - prevReplicas info
        = Z.of_nat (increments_of p h)
    | None => increments_of p h = 0%nat
    end.

(** [k] is the lowest replica count of the grouping. *)
Definition lowest (g : gmap Z (list string)) (k : Z) : Prop :=
  is_Some (g !! k) ∧ map_Forall (λ k' _, k ≤ k') g.

#[global] Instance lowest_dec g k : Decision (lowest g k).
Proof. unfold lowest. apply _. Defined.

(** ** Further vocabulary of the orchestrator *)

(** The calls of [editMachineSets] in a run, in order. *)
Fixpoint edits {MachineDetails : Type} (events : list (Event MachineDetails))
    : list (gmap string MachineSetInfo * bool) :=
  match events with
  | [] => []
  | EditMachineSets plan isScaleUp :: rest => (plan, isScaleUp) :: edits rest
  | _ :: rest => edits rest
  end.

(** How a run of the scenario ends: [log.Fatalf] logs its message and ends
    the process with status 1; otherwise the method returns after its
    calls. *)
Inductive Run (MachineDetails : Type) : Type :=
| RunFatal (msg : string)
| RunReturns (events : list (Event MachineDetails)).

Arguments RunFatal {MachineDetails} msg.
Arguments RunReturns {MachineDetails} events.

(** [getMachineClient]: [newForConfig] is the error of
    [machinev1beta1.NewForConfig], [None] for nil. The result is the
    message of [log.Fatalf], or [None] when the client is returned. *)
Definition getMachineClient (newForConfig : option string) : option string :=
  match newForConfig with
  | Some err => Some ("error creating machine API client: " +:+ err)%string
  | None => None
  end.

(** The method [OrchestrateWorkload] of [AWSScenario] as a whole: the
    machine client is created first, and when that fails the process ends
    before any other call. *)
Definition AWSScenario_OrchestrateWorkload {MachineDetails : Type}
    (newForConfig : option string) (c : Collaborators MachineDetails)
    (scaleConfig : ScaleConfig) : result (Run MachineDetails) :=
  match getMachineClient newForConfig with
  | Some msg => Ok (RunFatal msg)
  | None =>
      events ← OrchestrateWorkload c scaleConfig;
      Ok (RunReturns events)
  end.

(** ** The index sub-command, [NewIndex] *)

(** The indexer types that the command tells apart. *)
Inductive IndexerType : Type :=
| ElasticIndexer
| LocalIndexer
| OtherIndexer.

(** The fields of [indexers.IndexerConfig] that the command sets; a field
    that is not set is the zero value. *)
Record IndexerConfig : Type := mkIndexerConfig {
  ic_Type : IndexerType;
  ic_Servers : list string;
  ic_Index : string;
  ic_MetricsDirectory : string;
  ic_TarballName : string
}.

(** The flags that [Run] branches on, and the string behind the
    [metricsEndpoint] pointer. *)
Record IndexFlags : Type := mkIndexFlags {
  ix_uuid : string;
  ix_esServer : string;
  ix_esIndex : string;
  ix_metricsDirectory : string;
  ix_tarballName : string;
  ix_metricsEndpoint : string
}.

(** What the collaborators of one run answer: the error of
    [GetClusterMetadata], the URL and token or the error of
    [GetPrometheus], the error of [ScrapeJobsMetrics] for each client of
    the scraper, and the error of [CreateTarball]. *)
Record IndexAnswers : Type := mkIndexAnswers {
  getClusterMetadata : option string;
  getPrometheus : string * string + string;
  scrapeJobsMetrics : list (option string);
  createTarball : option string
}.

Inductive IndexEvent : Type :=
| CallGetClusterMetadata
| CallGetPrometheus
| CallProcessMetricsScraperConfig (url token : string)
| CallScrapeJobsMetrics (client : nat)
| CallCreateTarball (config : IndexerConfig).

(** How the process ends: [os.Exit(rc)] in [PostRun], [log.Fatal], or a
    run-time panic. *)
Inductive IndexEnd : Type :=
| IndexExit (rc : Z)
| IndexFatal (msg : string)
| IndexPanic (msg : string).

Record IndexRun : Type := mkIndexRun {
  ir_events : list IndexEvent;
  ir_indexers : list IndexerConfig;
  ir_end : IndexEnd
}.

Definition is_empty_string (s : string) : bool := String.eqb s "".

(** The indexer that [Run] appends to [ConfigSpec.Indexers]. *)
Definition new_indexer (f : IndexFlags) : IndexerConfig :=
  if negb (is_empty_string (ix_esServer f))
     && negb (is_empty_string (ix_esIndex f))
  then mkIndexerConfig ElasticIndexer [ix_esServer f] (ix_esIndex f) "" ""
  else
    let metricsDirectory :=
      if String.eqb (ix_metricsDirectory f) "collected-metrics"
      then (ix_metricsDirectory f +:+ "-" +:+ ix_uuid f)%string
      else ix_metricsDirectory f in
    mkIndexerConfig LocalIndexer [] "" metricsDirectory (ix_tarballName f).

(** [for _, prometheusClient := range metricsScraper.PrometheusClients]:
    the calls and [rc]. *)
Fixpoint scrape_clients (results : list (option string)) (client : nat)
    (rc : Z) : list IndexEvent * Z :=
  match results with
  | [] => ([], rc)
  | result :: rest =>
      let rc' := match result with
                 | Some _ => 1
                 | None => rc
                 end in
      let '(events, rc'') := scrape_clients rest (S client) rc' in
      (CallScrapeJobsMetrics client :: events, rc'')
  end.

Definition is_local (t : IndexerType) : bool :=
  match t with
  | LocalIndexer => true
  | _ => false
  end.

(** [Run] followed by [PostRun]; [existing] is [ConfigSpec.Indexers] when
    the command starts. *)
Definition index_run (f : IndexFlags) (existing : list IndexerConfig)
    (a : IndexAnswers) : IndexRun :=
  match getClusterMetadata a with
  | Some err =>
      mkIndexRun [CallGetClusterMetadata] existing
        (IndexFatal ("Error obtaining clusterMetadata: " +:+ err))
  | None =>
      let indexers := existing ++ [new_indexer f] in
      let fetch := is_empty_string (ix_metricsEndpoint f) in
      match (if fetch then getPrometheus a else inl (""%string, ""%string)) with
      | inr err =>
          mkIndexRun [CallGetClusterMetadata; CallGetPrometheus] indexers
            (IndexFatal
               ("Error obtaining prometheus information from cluster: "
                +:+ err))
      | inl (url, token) =>
          let '(scrapes, rc) := scrape_clients (scrapeJobsMetrics a) 0 0 in
          let events :=
            [CallGetClusterMetadata]
            ++ (if fetch then [CallGetPrometheus] else [])
            ++ [CallProcessMetricsScraperConfig url token]
            ++ scrapes in
          match indexers !! O with
          | None => mkIndexRun events indexers (IndexPanic "index out of range")
          | Some first =>
              if is_local (ic_Type first)
                 && negb (is_empty_string (ix_tarballName f))
              then
                match createTarball a with
                | Some err =>
                    mkIndexRun (events ++ [CallCreateTarball first]) indexers
                      (IndexFatal err)
                | None =>
                    mkIndexRun (events ++ [CallCreateTarball first]) indexers
                      (IndexExit rc)
                end
              else mkIndexRun events indexers (IndexExit rc)
          end
      end
  end.

(** The clients scraped and the tarballs created in a run, in order. *)
Fixpoint scraped (events : list IndexEvent) : list nat :=
  match events with
  | [] => []
  | CallScrapeJobsMetrics client :: rest => client :: scraped rest
  | _ :: rest => scraped rest
  end.

Fixpoint tarballs (events : list IndexEvent) : list IndexerConfig :=
  match events with
  | [] => []
  | CallCreateTarball config :: rest => config :: tarballs rest
  | _ :: rest => tarballs rest
  end.

Definition scrape_failed (result : option string) : bool :=
  match result with
  | Some _ => true
  | None => false
  end.

(** ** The root command, [openShiftCmd] *)

Record RootFlags : Type := mkRootFlags {
  rf_esServer : string;
  rf_esIndex : string;
  rf_localIndexing : bool;
  rf_metricsEndpoint : string;
  rf_alerting : bool;
  rf_checkHealth : bool;
  rf_uuid : string;
  rf_QPS : Z;
  rf_burst : Z;
  rf_gc : bool;
  rf_gcMetrics : bool;
  rf_extract : bool
}.

(** The errors of [ExtractWorkload] and [GatherMetadata]. *)
Record PreRunAnswers : Type := mkPreRunAnswers {
  extractWorkload : option string;
  gatherMetadata : option string
}.

Inductive PreRunEvent : Type :=
| CallConfigureLogging
| CallExtractWorkload (name : string)
| CallSetupLogging (tag : string)
| CallClusterHealthCheck
| CallNewWorkloadHelper
| CallGatherMetadata (alerting : bool).

Inductive PreRunEnd : Type :=
| PreRunReturns
| PreRunExit (rc : Z)
| PreRunFatal (msg : string).

Record PreRun : Type := mkPreRun {
  pr_events : list PreRunEvent;
  pr_env : gmap string string;
  pr_end : PreRunEnd
}.

(** [fmt.Sprintf("%v", b)] and [fmt.Sprintf("%d", n)]. *)
Definition sprint_bool (b : bool) : string :=
  if b then "true" else "false".

Definition sprint_int (n : Z) : string := pretty n.

(** The map [envVars] of [PersistentPreRun]. *)
Definition envVars (f : RootFlags) : gmap string string :=
  let vars : gmap string string :=
    <["GC_METRICS"%string := sprint_bool (rf_gcMetrics f)]>
      (<["GC"%string := sprint_bool (rf_gc f)]>
         (<["BURST"%string := sprint_int (rf_burst f)]>
            (<["QPS"%string := sprint_int (rf_QPS f)]>
               (<["UUID"%string := rf_uuid f]> ∅)))) in
  let vars := <["LOCAL_INDEXING"%string := sprint_bool (rf_localIndexing f)]> vars in
  let vars :=
    if rf_alerting f
    then <["ALERTS"%string := "alerts.yml"%string]> vars
    else <["ALERTS"%string := ""%string]> vars in
  if is_empty_string (rf_metricsEndpoint f)
  then <["ES_INDEX"%string := rf_esIndex f]>
         (<["ES_SERVER"%string := rf_esServer f]> vars)
  else vars.

(** [PersistentPreRun] for the command [name], in the environment [env];
    [os.Setenv] of every entry of [envVars] is the union with [env]. *)
Definition PersistentPreRun (name : string) (f : RootFlags)
    (a : PreRunAnswers) (env : gmap string string) : PreRun :=
  if String.eqb name "version"
  then mkPreRun [] env PreRunReturns
  else if rf_extract f
  then
    match extractWorkload a with
    | Some err =>
        mkPreRun [CallConfigureLogging; CallExtractWorkload name] env
          (PreRunFatal err)
    | None =>
        mkPreRun [CallConfigureLogging; CallExtractWorkload name] env
          (PreRunExit 0)
    end
  else
    let health :=
      rf_checkHealth f
      && (negb (String.eqb name "cluster-health") || String.eqb name "index") in
    let events :=
      [CallConfigureLogging; CallSetupLogging ("ocp-" +:+ rf_uuid f)]
      ++ (if health then [CallClusterHealthCheck] else [])
      ++ [CallNewWorkloadHelper; CallGatherMetadata (rf_alerting f)] in
    mkPreRun events (envVars f ∪ env)
      match gatherMetadata a with
      | Some err => PreRunFatal err
      | None => PreRunReturns
      end.

(** * Properties *)

(** ** Go integers *)

Lemma int_wrap_small z : MinInt ≤ z ≤ MaxInt → int_wrap z = z.
Proof.
  unfold int_wrap, MinInt, MaxInt. intros H.
  rewrite Z.mod_small; lia.
Qed.

Lemma int_add_small a b : MinInt ≤ a + b ≤ MaxInt → int_add a b = a + b.
Proof. apply int_wrap_small. Qed.

Lemma int_sub_small a b : MinInt ≤ a - b ≤ MaxInt → int_sub a b = a - b.
Proof. apply int_wrap_small. Qed.

(** ** Groups and plans *)

Lemma group_lookup (g : gmap Z (list string)) k l :
  g !! k = Some l → group g k = l.
Proof. unfold group. by intros ->. Qed.

Lemma elem_of_group (g : gmap Z (list string)) k p :
  p ∈ group g k → ∃ l, g !! k = Some l ∧ p ∈ l.
Proof.
  unfold group. destruct (g !! k) as [l|]; simpl.
  - eauto.
  - by intros ?%elem_of_nil.
Qed.

Lemma group_insert_eq (g : gmap Z (list string)) k l :
  group (<[k:=l]> g) k = l.
Proof. unfold group. by rewrite lookup_insert_eq. Qed.

Lemma group_insert_ne (g : gmap Z (list string)) k k' l :
  k ≠ k' → group (<[k:=l]> g) k' = group g k'.
Proof. intros. unfold group. by rewrite lookup_insert_ne. Qed.

Lemma group_delete_eq (g : gmap Z (list string)) k : group (delete k g) k = [].
Proof. unfold group. by rewrite lookup_delete_eq. Qed.

Lemma group_delete_ne (g : gmap Z (list string)) k k' :
  k ≠ k' → group (delete k g) k' = group g k'.
Proof. intros. unfold group. by rewrite lookup_delete_ne. Qed.

Lemma plan_sum_comm (j1 j2 : string) (z1 z2 : MachineSetInfo) (y : Z) :
  y + (currentReplicas z2 - prevReplicas z2)
    + (currentReplicas z1 - prevReplicas z1)
  = y + (currentReplicas z1 - prevReplicas z1)
    + (currentReplicas z2 - prevReplicas z2).
Proof. lia. Qed.

Lemma plan_sum_empty : plan_sum ∅ = 0.
Proof. unfold plan_sum. by rewrite map_fold_empty. Qed.

Lemma plan_sum_insert (plan : gmap string MachineSetInfo) m info :
  plan !! m = None →
  plan_sum (<[m:=info]> plan)
  = plan_sum plan + (currentReplicas info - prevReplicas info).
Proof.
  intros Hm. unfold plan_sum.
  rewrite map_fold_insert_L; [done| |done].
  intros. apply plan_sum_comm; assumption.
Qed.

Lemma plan_sum_update (plan : gmap string MachineSetInfo) m a b :
  plan !! m = Some a →
  plan_sum (<[m:=b]> plan)
  = plan_sum plan - (currentReplicas a - prevReplicas a)
    + (currentReplicas b - prevReplicas b).
Proof.
  intros Hm.
  rewrite <- (insert_delete_eq plan m b).
  rewrite plan_sum_insert by apply lookup_delete_eq.
  unfold plan_sum at 2.
  rewrite (map_fold_delete_L _ _ m a plan); [fold (plan_sum (delete m plan)); lia| |done].
  intros. apply plan_sum_comm; assumption.
Qed.

Lemma increment_plan value j m st :
  machineSetsToEdit (increment value j m st)
  = <[m := stored value (machineSetsToEdit st !! m)]> (machineSetsToEdit st).
Proof.
  unfold increment, stored; simpl.
  destruct (machineSetsToEdit st !! m) as [a|] eqn:Hm.
  - by rewrite Hm.
  - rewrite lookup_insert_eq. simpl. by rewrite insert_insert_eq.
Qed.

(** ** The history of a pass *)

Lemma snoc_split {A} (h : list A) (e : A) h1 e' h2 :
  h ++ [e] = h1 ++ e' :: h2 →
  (h2 = [] ∧ e' = e ∧ h1 = h) ∨ (∃ h2', h2 = h2' ++ [e] ∧ h = h1 ++ e' :: h2').
Proof.
  destruct h2 as [|x h2 _] using rev_ind; intros H.
  - left. apply app_inj_tail in H as [-> ->]. done.
  - right. exists h2.
    rewrite app_comm_cons, app_assoc in H.
    apply app_inj_tail in H as [-> ->]. done.
Qed.

Lemma last_plan_snoc h e : last_plan (h ++ [e]) = inc_plan e.
Proof. unfold last_plan. by rewrite last_snoc. Qed.

Lemma plan_le_refl plan : plan_le plan plan.
Proof. intros p a Ha. exists a. split_and!; [done|done|lia]. Qed.

Lemma plan_le_trans plan1 plan2 plan3 :
  plan_le plan1 plan2 → plan_le plan2 plan3 → plan_le plan1 plan3.
Proof.
  intros H12 H23 p a Ha.
  destruct (H12 p a Ha) as (b & Hb & Hprev & Hcur).
  destruct (H23 p b Hb) as (c & Hc & Hprev' & Hcur').
  exists c. split_and!; [done|congruence|lia].
Qed.

Lemma level_lookup g0 (plan : gmap string MachineSetInfo) p k a :
  level g0 plan p k → plan !! p = Some a → currentReplicas a = k.
Proof. unfold level. intros H Ha. by rewrite Ha in H. Qed.

Lemma plan_le_stored g0 (plan : gmap string MachineSetInfo) m value :
  level g0 plan m value →
  int_add value 1 = value + 1 →
  plan_le plan (<[m := stored value (plan !! m)]> plan).
Proof.
  intros Hlev Hadd p a Ha. destruct (decide (p = m)) as [->|Hne].
  - rewrite lookup_insert_eq, Ha. eexists. split; [done|]. simpl.
    rewrite Hadd, (level_lookup _ _ _ _ _ Hlev Ha). lia.
  - rewrite lookup_insert_ne by done. exists a. split_and!; [done|done|lia].
Qed.

Lemma History_empty g0 : History g0 ∅ [].
Proof.
  constructor.
  - intros p. rewrite fmap_nil, lookup_empty, is_Some_alt. split; [|done].
    by intros ?%elem_of_nil.
  - done.
  - intros h1 e h2 H. by destruct h1.
  - intros h1 e h2 H. by destruct h1.
  - intros h1 e1 h2 e2 h3 H. by destruct h1.
  - by intros e ?%elem_of_nil.
Qed.

Lemma History_step g0 (plan : gmap string MachineSetInfo) h m value :
  History g0 plan h →
  level g0 plan m value →
  int_add value 1 = value + 1 →
  (∀ q k, q ∈ group g0 k → k < value → is_Some (plan !! q)) →
  History g0 (<[m := stored value (plan !! m)]> plan)
    (h ++ [mkIncrement m value (<[m := stored value (plan !! m)]> plan)]).
Proof.
  intros [Hnames Hlast Hrec Hlev Hmono Hkept] Hm Hadd Hbelow.
  pose proof (plan_le_stored _ _ _ _ Hm Hadd) as Hle.
  constructor.
  - intros p. rewrite fmap_app, elem_of_app, Hnames. simpl.
    rewrite list_elem_of_singleton, lookup_insert_is_Some.
    destruct (decide (m = p)) as [->|Hne]; intuition congruence.
  - apply last_plan_snoc.
  - intros h1 e h2 [(-> & -> & ->)|(h2' & -> & ->)]%snoc_split.
    + simpl. rewrite Hlast. eauto.
    + by eapply Hrec.
  - intros h1 e h2 [(-> & -> & ->)|(h2' & -> & ->)]%snoc_split.
    + simpl. intros q k Hq Hk. apply Hnames. eauto.
    + by eapply Hlev.
  - intros h1 e1 h2 e2 h3 [(? & _)|(t & Ht & ->)]%snoc_split.
    { by destruct h2. }
    symmetry in Ht.
    apply snoc_split in Ht as [(-> & -> & ->)|(h3' & -> & ->)].
    + intros p a Ha.
      assert (He1 : e1 ∈ h1 ++ e1 :: t).
      { apply elem_of_app. right. apply elem_of_cons. by left. }
      destruct (Hkept e1 He1 p a Ha) as (b & Hb & Hprev & Hcur).
      simpl. destruct (decide (p = m)) as [->|Hne].
      * rewrite lookup_insert_eq, Hb. eexists. split; [done|]. simpl.
        rewrite Hadd, (level_lookup _ _ _ _ _ Hm Hb) in *.
        split_and!; [done|lia|lia].
      * rewrite lookup_insert_ne by done. exists b.
        split_and!; [done|done|lia|congruence].
    + by eapply Hmono.
  - intros e [He| ->%list_elem_of_singleton]%elem_of_app.
    + eapply plan_le_trans; [by apply Hkept|done].
    + apply plan_le_refl.
Qed.

(** ** The range loop keeps the invariant *)

Section Pass.
Variable g0 : gmap Z (list string).
Variable d0 : Z.
Hypothesis g0_unique :
  ∀ p k1 k2, p ∈ group g0 k1 → p ∈ group g0 k2 → k1 = k2.

Lemma level_unique (plan : gmap string MachineSetInfo) p k1 k2 :
  level g0 plan p k1 → level g0 plan p k2 → k1 = k2.
Proof.
  unfold level. destruct (plan !! p); [congruence|apply g0_unique].
Qed.

Lemma sorted_head_lt value rest k :
  StronglySorted Z.lt (value :: rest) → k ∈ rest → value < k.
Proof.
  intros H Hk. apply StronglySorted_inv in H as [_ H].
  rewrite Forall_forall in H. auto.
Qed.

Lemma Mid_key_ge visited value rest served todo st k :
  Mid g0 d0 visited value rest served todo st →
  is_Some (machineSetReplicas st !! k) → value ≤ k.
Proof.
  intros HM [[->|Hk]%elem_of_cons|[-> _]]%(mid_dom _ _ _ _ _ _ _ _ HM).
  - lia.
  - pose proof (sorted_head_lt _ _ _ (mid_sorted _ _ _ _ _ _ _ _ HM) Hk). lia.
  - lia.
Qed.

Lemma Mid_unplanned visited value rest served todo st q k :
  Mid g0 d0 visited value rest served todo st →
  q ∈ group g0 k → machineSetsToEdit st !! q = None → value ≤ k.
Proof.
  intros HM Hq Hnone.
  assert (Hin : q ∈ group (machineSetReplicas st) k).
  { apply (mid_level _ _ _ _ _ _ _ _ HM). left. unfold level. by rewrite Hnone. }
  apply elem_of_group in Hin as (l & Hl & _).
  eapply Mid_key_ge; eauto.
Qed.

Lemma Mid_below visited value rest served todo st q k :
  Mid g0 d0 visited value rest served todo st →
  q ∈ group g0 k → k < value → is_Some (machineSetsToEdit st !! q).
Proof.
  intros HM Hq Hk.
  destruct (machineSetsToEdit st !! q) as [a|] eqn:Hplan; [eauto|].
  pose proof (Mid_unplanned _ _ _ _ _ _ _ _ HM Hq Hplan). lia.
Qed.

Lemma Mid_next visited value rest served m todo st :
  Mid g0 d0 visited value rest served (m :: todo) st →
  (m ∉ served) ∧ (m ∉ todo) ∧ level g0 (machineSetsToEdit st) m value.
Proof.
  intros HM.
  pose proof (mid_here _ _ _ _ _ _ _ _ HM) as Hhere.
  destruct (mid_lists _ _ _ _ _ _ _ _ HM _ _ Hhere) as [_ Hnd].
  apply NoDup_app in Hnd as (_ & Hdisj & [Hm _]%NoDup_cons).
  assert (Hnot : m ∉ served).
  { intros Hin. apply (Hdisj _ Hin). apply elem_of_cons. by left. }
  split_and!; [done|done|].
  assert (Hin : m ∈ group (machineSetReplicas st) value).
  { rewrite (group_lookup _ _ _ Hhere). apply elem_of_app. right.
    apply elem_of_cons. by left. }
  apply (mid_level _ _ _ _ _ _ _ _ HM) in Hin as [Hlev|[_ Hin]]; done.
Qed.

Lemma Mid_no_wrap visited value rest served todo st :
  Mid g0 d0 visited value rest served todo st →
  0 < desiredWorkerCount st →
  int_add value 1 = value + 1 ∧
  int_sub (desiredWorkerCount st) 1 = desiredWorkerCount st - 1.
Proof.
  intros HM Hpos.
  destruct (mid_range _ _ _ _ _ _ _ _ HM value) as [Hlo Hhi].
  { apply elem_of_cons. by left. }
  pose proof (mid_count _ _ _ _ _ _ _ _ HM) as Hcount.
  split; [apply int_add_small|apply int_sub_small];
    unfold MinInt, MaxInt in *; lia.
Qed.

Lemma increment_groups value j m st :
  machineSetReplicas (increment value j m st)
  = <[int_add value 1 :=
        group (machineSetReplicas st) (int_add value 1) ++ [m]]>
      (machineSetReplicas st).
Proof. reflexivity. Qed.

Lemma increment_history value j m st :
  history (increment value j m st)
  = history st
    ++ [mkIncrement m value (machineSetsToEdit (increment value j m st))].
Proof. reflexivity. Qed.

Lemma Mid_step visited value rest served m todo st :
  Mid g0 d0 visited value rest served (m :: todo) st →
  0 < desiredWorkerCount st →
  Mid g0 d0 visited value rest (served ++ [m]) todo
    (increment value (length served) m st).
Proof.
  intros HM Hpos.
  destruct (Mid_next _ _ _ _ _ _ _ HM) as (Hns & Hnt & Hlev).
  destruct (Mid_no_wrap _ _ _ _ _ _ HM Hpos) as [Hadd Hsub].
  pose proof (λ q k, Mid_below _ _ _ _ _ _ q k HM) as Hbelow.
  destruct HM as [Hkeys Hsorted Hdom Hhere Hlists Hlevel Hplan Hserved
                    Hsum Hcount Hrange Hlast Hhist].
  assert (Hfresh : m ∉ group (machineSetReplicas st) (value + 1)).
  { intros [Hin|[? _]]%Hlevel; [|lia].
    pose proof (level_unique _ _ _ _ Hlev Hin). lia. }
  constructor.
  - done.
  - done.
  - intros k. rewrite increment_groups, Hadd, lookup_insert_is_Some', Hdom.
    split.
    + intros [<-|[?|[-> _]]]; [right|by left|right];
        (split; [done|by destruct served]).
    + intros [?|[-> _]]; [right; by left|by left].
  - rewrite increment_groups, Hadd, lookup_insert_ne by lia.
    by rewrite <- app_assoc.
  - intros k l. rewrite increment_groups, Hadd.
    destruct (decide (k = value + 1)) as [->|Hne].
    + rewrite lookup_insert_eq. intros [= <-]. split.
      * by destruct (group (machineSetReplicas st) (value + 1)).
      * apply NoDup_app. split_and!.
        -- unfold group. destruct (machineSetReplicas st !! (value + 1)) eqn:E.
           ++ by apply (Hlists _ _ E).
           ++ constructor.
        -- intros x Hx ->%list_elem_of_singleton. done.
        -- apply NoDup_singleton.
    + rewrite lookup_insert_ne by done. apply Hlists.
  - intros k p. rewrite increment_groups, increment_plan, Hadd.
    unfold level. destruct (decide (k = value + 1)) as [->|Hk].
    + rewrite group_insert_eq, elem_of_app, list_elem_of_singleton, Hlevel.
      unfold level. destruct (decide (p = m)) as [->|Hp].
      * rewrite lookup_insert_eq. simpl. rewrite Hadd. intuition.
      * rewrite lookup_insert_ne by done. intuition lia.
    + rewrite group_insert_ne, Hlevel by done.
      rewrite elem_of_app, list_elem_of_singleton.
      destruct (decide (p = m)) as [->|Hp].
      * rewrite lookup_insert_eq. simpl. rewrite Hadd. split.
        -- intros [Hin|[-> Hin]]; [|done].
           pose proof (level_unique _ _ _ _ Hlev Hin) as <-. auto.
        -- intros [?|[-> _]]; [lia|]. by left.
      * rewrite lookup_insert_ne by done. unfold level. intuition.
  - intros p info. rewrite increment_plan.
    destruct (decide (p = m)) as [->|Hp].
    + rewrite lookup_insert_eq. intros [= <-]. simpl. rewrite Hadd.
      split_and!.
      * unfold level in Hlev.
        destruct (machineSetsToEdit st !! m) as [a|] eqn:E; [|done].
        by apply (Hplan _ _ E).
      * intros Hn. exfalso. apply Hn, elem_of_app. right.
        by apply list_elem_of_singleton.
      * done.
    + rewrite lookup_insert_ne by done. intros Hinfo.
      destruct (Hplan _ _ Hinfo) as (H1 & H2 & H3). split_and!; [done| |].
      * intros Hn. apply H2. intros Hin. apply Hn, elem_of_app. by left.
      * intros [Hin|Hin%list_elem_of_singleton]%elem_of_app; [auto|done].
  - intros p [Hin| ->%list_elem_of_singleton]%elem_of_app;
      rewrite increment_plan, lookup_insert_is_Some'; [right; auto|by left].
  - rewrite increment_plan. simpl. rewrite Hsub.
    destruct (machineSetsToEdit st !! m) as [a|] eqn:E.
    + rewrite (plan_sum_update _ _ _ _ E). simpl. rewrite Hadd, Hsum.
      rewrite (level_lookup _ _ _ _ _ Hlev E). lia.
    + rewrite (plan_sum_insert _ _ _ E). simpl. rewrite Hadd, Hsum. lia.
  - simpl. rewrite Hsub. lia.
  - intros k Hk. simpl. rewrite Hsub, length_app. simpl.
    destruct (Hrange k Hk). lia.
  - intros _. simpl. rewrite length_app. simpl. lia.
  - rewrite increment_history, increment_plan.
    apply History_step; auto.
Qed.

Lemma range_machineSets_Mid visited value rest todo :
  ∀ served st modified,
    Mid g0 d0 visited value rest served todo st →
    (modified = true ↔ served ≠ []) →
    ∃ served' todo' st' modified',
      range_machineSets value todo (length served) st modified
      = (st', modified') ∧
      Mid g0 d0 visited value rest served' todo' st' ∧
      served' ++ todo' = served ++ todo ∧
      (modified' = true ↔ served' ≠ []) ∧
      (todo' = [] ∨ desiredWorkerCount st' = 0) ∧
      (0 < desiredWorkerCount st → todo ≠ [] → served' ≠ []) ∧
      served `prefix_of` served' ∧
      desiredWorkerCount st' + Z.of_nat (length served')
      = desiredWorkerCount st + Z.of_nat (length served).
Proof.
  induction todo as [|m todo IH]; intros served st modified HM Hmod.
  - exists served, [], st, modified. simpl. split_and!; auto.
  - simpl. destruct (0 <? desiredWorkerCount st) eqn:Hpos.
    + apply Z.ltb_lt in Hpos.
      pose proof (Mid_step _ _ _ _ _ _ _ HM Hpos) as HM'.
      destruct (IH (served ++ [m]) _ true HM')
        as (served' & todo' & st' & modified' & Hrun & HM'' & Happ & Hmod'
            & Hend & _ & [extra ->] & Hcount).
      { split; [by destruct served|done]. }
      rewrite length_app, Nat.add_1_r in Hrun. simpl in Hrun.
      exists ((served ++ [m]) ++ extra), todo', st', modified'.
      split_and!; auto.
      * rewrite Happ. symmetry. apply (assoc_L (++) served [m] todo).
      * intros _ _. by destruct served.
      * exists ([m] ++ extra). by rewrite (assoc_L (++)).
      * rewrite Hcount, length_app. simpl.
        destruct (Mid_no_wrap _ _ _ _ _ _ HM Hpos) as [_ ->]. lia.
    + apply Z.ltb_ge in Hpos.
      pose proof (mid_count _ _ _ _ _ _ _ _ HM).
      exists served, (m :: todo), st, modified. split_and!; auto.
      * right. lia.
      * lia.
Qed.

Lemma Post_of_Mid visited value rest served todo st st' :
  Mid g0 d0 visited value rest served todo st →
  desiredWorkerCount st = 0 →
  machineSetsToEdit st' = machineSetsToEdit st →
  desiredWorkerCount st' = desiredWorkerCount st →
  history st' = history st →
  Post g0 d0 st'.
Proof.
  intros HM Hzero Hplan Hcount Hhist. constructor.
  - rewrite Hplan, (mid_sum _ _ _ _ _ _ _ _ HM). lia.
  - congruence.
  - rewrite Hplan, Hhist. apply (mid_history _ _ _ _ _ _ _ _ HM).
  - rewrite Hplan. intros p info Hinfo.
    apply (mid_plan _ _ _ _ _ _ _ _ HM _ _ Hinfo).
  - exists value. rewrite Hplan. split.
    + intros p info Hinfo.
      destruct (mid_plan _ _ _ _ _ _ _ _ HM _ _ Hinfo) as (_ & H1 & H2).
      destruct (decide (p ∈ served)) as [Hin|Hin]; [apply H2 in Hin|apply H1 in Hin]; lia.
    + intros q k Hq Hnone. eapply Mid_unplanned; eauto.
Qed.

Lemma Mid_advance visited value rest served st st' rest' :
  Mid g0 d0 visited value rest served [] st →
  served ≠ [] →
  0 < desiredWorkerCount st →
  machineSetsToEdit st' = machineSetsToEdit st →
  desiredWorkerCount st' = desiredWorkerCount st →
  history st' = history st →
  machineSetReplicas st' = delete value (machineSetReplicas st) →
  keys st' = (visited ++ [value]) ++ (value + 1) :: rest' →
  StronglySorted Z.lt (value + 1 :: rest') →
  (∀ k, k ∈ (value + 1) :: rest' ↔ k = value + 1 ∨ k ∈ rest) →
  Mid g0 d0 (visited ++ [value]) (value + 1) rest' []
    (group (machineSetReplicas st') (value + 1)) st'.
Proof.
  intros HM Hne Hpos Hplan Hcount Hhist Hgroups Hkeys Hsorted' Hrest.
  pose proof (λ k, sorted_head_lt _ _ k (mid_sorted _ _ _ _ _ _ _ _ HM))
    as Hlt.
  destruct HM as [_ Hsorted Hdom Hhere Hlists Hlevel Hpl Hserved
                    Hsum Hcnt Hrange Hlast Hhistory].
  rewrite app_nil_r in Hhere.
  assert (Hdom' : ∀ k, is_Some (machineSetReplicas st' !! k) ↔
                       k ∈ (value + 1) :: rest').
  { intros k. rewrite Hgroups, lookup_delete_is_Some, Hdom, Hrest.
    rewrite elem_of_cons. split.
    - intros (Hk & [[?|?]|[? _]]); [done|by right|by left].
    - intros [->|Hk]; (split; [|]).
      + lia.
      + right. done.
      + specialize (Hlt _ Hk). lia.
      + left. by right. }
  assert (Hall : ∀ p, level g0 (machineSetsToEdit st) p value → False).
  { intros p Hp.
    assert (Hin : p ∈ served).
    { rewrite <- (group_lookup _ _ _ Hhere). apply Hlevel. by left. }
    destruct (Hserved _ Hin) as [info Hinfo].
    destruct (Hpl _ _ Hinfo) as (_ & _ & Hcur). specialize (Hcur Hin).
    pose proof (level_lookup _ _ _ _ _ Hp Hinfo). lia. }
  constructor.
  - done.
  - done.
  - intros k. rewrite Hdom'. split; [by left|].
    intros [?|[_ ?]]; done.
  - rewrite app_nil_l.
    assert (Hs : is_Some (machineSetReplicas st' !! (value + 1))).
    { apply Hdom', elem_of_cons. by left. }
    destruct Hs as [l Hl]. unfold group. by rewrite Hl.
  - intros k l. rewrite Hgroups.
    intros [_ Hl]%lookup_delete_Some. by apply (Hlists k).
  - intros k p. rewrite Hgroups, Hplan.
    destruct (decide (k = value)) as [->|Hk].
    + rewrite group_delete_eq, elem_of_nil. split; [done|].
      intros [Hp|[? _]]; [by apply (Hall p)|lia].
    + rewrite group_delete_ne, Hlevel by done. split.
      * intros [?|[? _]]; [by left|done].
      * intros [?|[_ []%elem_of_nil]]. by left.
  - intros p info. rewrite Hplan. intros Hinfo.
    destruct (Hpl _ _ Hinfo) as (Hprev & Hout & Hin). split_and!.
    + done.
    + intros _. destruct (decide (p ∈ served)) as [Hs|Hs]; [auto|].
      exfalso. apply (Hall p). unfold level. rewrite Hinfo. auto.
    + by intros ?%elem_of_nil.
  - by intros p ?%elem_of_nil.
  - by rewrite Hplan, Hcount.
  - rewrite Hcount. lia.
  - intros k Hk. rewrite Hcount. simpl.
    assert (0 < Z.of_nat (length served)) by (destruct served; simpl; [done|lia]).
    apply Hrest in Hk as [->|Hk].
    + destruct (Hrange value); [by left|]. lia.
    + destruct (Hrange k); [by right|]. lia.
  - done.
  - by rewrite Hplan, Hhist.
Qed.

(** ** One iteration keeps the invariant or ends the pass *)

Lemma visit_group_Mid visited value rest todo st :
  Mid g0 d0 visited value rest [] todo st →
  0 < desiredWorkerCount st →
  ∃ served todo' st1 g',
    visit_group value st = Ok (set_groups g' st1, true) ∧
    Mid g0 d0 visited value rest served todo' st1 ∧
    served ≠ [] ∧
    (todo' = [] ∨ desiredWorkerCount st1 = 0) ∧
    (todo' = [] → g' = delete value (machineSetReplicas st1)) ∧
    desiredWorkerCount st1 < desiredWorkerCount st.
Proof.
  intros HM Hpos.
  pose proof (mid_here _ _ _ _ _ _ _ _ HM) as Hhere. rewrite app_nil_l in Hhere.
  destruct (mid_lists _ _ _ _ _ _ _ _ HM _ _ Hhere) as [Hne _].
  destruct (range_machineSets_Mid _ _ _ _ [] st false HM)
    as (served & todo' & st1 & modified & Hrun & HM1 & Happ & Hmod & Hend
        & Hsome & _ & Hcount).
  { split; done. }
  simpl in Hrun, Happ, Hcount. specialize (Hsome Hpos Hne).
  apply Hmod in Hsome as Hmodified. subst modified.
  pose proof (mid_last _ _ _ _ _ _ _ _ HM1 Hsome) as Hlast.
  assert (0 < Z.of_nat (length served)) by (destruct served; simpl; [done|lia]).
  assert (Hlen : length todo = (length served + length todo')%nat).
  { by rewrite <- Happ, length_app. }
  unfold visit_group. rewrite Hhere, Hrun.
  destruct (lastIndex st1 =? Z.of_nat (length todo) - 1) eqn:Hall.
  - eexists served, todo', st1, _. split_and!; [done|done|done|done|done|lia].
  - apply Z.eqb_neq in Hall.
    destruct (lastIndex st1 + 1 <=? Z.of_nat (length todo)) eqn:Hslice.
    + eexists served, todo', st1, _. split_and!; [done|done|done|done| |lia].
      intros ->. exfalso. apply Hall. rewrite Hlen. simpl. lia.
    + apply Z.leb_gt in Hslice. lia.
Qed.

Lemma keys_lookup_here (visited : list Z) value rest :
  (visited ++ value :: rest) !! length visited = Some value.
Proof. by apply list_lookup_middle. Qed.

Lemma keys_lookup_next (visited : list Z) value rest :
  (visited ++ value :: rest) !! S (length visited) = head rest.
Proof.
  rewrite lookup_app_r by lia.
  replace (S (length visited) - length visited)%nat with 1%nat by lia.
  by destruct rest.
Qed.

Lemma keys_insert (visited : list Z) value rest x :
  take (S (length visited)) (visited ++ value :: rest)
    ++ x :: drop (S (length visited)) (visited ++ value :: rest)
  = (visited ++ [value]) ++ x :: rest.
Proof.
  replace (visited ++ value :: rest) with ((visited ++ [value]) ++ rest)
    by (by rewrite <- (assoc_L (++))).
  replace (S (length visited)) with (length (visited ++ [value]))
    by (rewrite length_app; simpl; lia).
  by rewrite take_app_length, drop_app_length.
Qed.

Lemma insert_condition_modified (visited : list Z) value rest :
  insert_condition true (length visited) value (visited ++ value :: rest)
  = Ok match rest with
       | [] => true
       | next :: _ => negb (int_add value 1 =? next)
       end.
Proof.
  unfold insert_condition. rewrite keys_lookup_next, length_app. simpl.
  destruct rest as [|next rest]; simpl.
  - replace (Z.of_nat (length visited) =? Z.of_nat (length visited + 1) - 1)
      with true by (symmetry; apply Z.eqb_eq; lia).
    done.
  - replace (Z.of_nat (length visited)
             =? Z.of_nat (length visited + S (S (length rest))) - 1)
      with false by (symmetry; apply Z.eqb_neq; lia).
    done.
Qed.

Lemma iteration_Mid visited value rest todo st :
  Mid g0 d0 visited value rest [] todo st →
  0 < desiredWorkerCount st →
  (∃ st' rest' todo',
      iteration (length visited) st = Ok (st', false) ∧
      Mid g0 d0 (visited ++ [value]) (value + 1) rest' [] todo' st' ∧
      0 < desiredWorkerCount st' < desiredWorkerCount st) ∨
  (∃ st', iteration (length visited) st = Ok (st', true) ∧ Post g0 d0 st').
Proof.
  intros HM Hpos.
  destruct (visit_group_Mid _ _ _ _ _ HM Hpos)
    as (served & todo' & st1 & g' & Hvisit & HM1 & Hne & Hend & Hdel & Hless).
  destruct (Mid_no_wrap _ _ _ _ _ _ HM Hpos) as [Hadd _].
  pose proof (mid_keys _ _ _ _ _ _ _ _ HM) as Hkeys.
  pose proof (mid_keys _ _ _ _ _ _ _ _ HM1) as Hkeys1.
  pose proof (mid_sorted _ _ _ _ _ _ _ _ HM1) as Hsorted.
  pose proof (mid_count _ _ _ _ _ _ _ _ HM1) as Hcount.
  unfold iteration. rewrite Hkeys, keys_lookup_here, Hvisit. simpl.
  unfold update_keys. simpl.
  rewrite Hkeys1, insert_condition_modified. simpl.
  rewrite keys_insert, Hadd.
  destruct (decide (desiredWorkerCount st1 = 0)) as [Hzero|Hnz].
  - right. eexists. split.
    + do 2 f_equal. apply Z.leb_le.
      destruct rest as [|next ?]; [|destruct (negb _)]; simpl; lia.
    + eapply (Post_of_Mid _ _ _ _ _ _ _ HM1 Hzero);
        (destruct rest as [|next ?]; [|destruct (negb _)]); reflexivity.
  - left. destruct Hend as [->|?]; [|done].
    specialize (Hdel eq_refl). subst g'.
    assert (Hgo : ∀ st2, desiredWorkerCount st2 = desiredWorkerCount st1 →
              (desiredWorkerCount st2 <=? 0) = false).
    { intros st2 ->. apply Z.leb_gt. lia. }
    destruct rest as [|next rest2].
    + eexists _, [], _. split_and!.
      * do 2 f_equal. by apply Hgo.
      * eapply (Mid_advance _ _ _ _ _ _ _ HM1); try done; try (simpl; lia).
        repeat constructor.
        intros k. rewrite !elem_of_cons, elem_of_nil. tauto.
      * simpl; lia.
      * simpl; lia.
    + destruct (Z.eqb_spec (value + 1) next) as [<-|Hnext]; simpl.
      * eexists _, rest2, _. split_and!.
        -- do 2 f_equal. by apply Hgo.
        -- eapply (Mid_advance _ _ _ _ _ _ _ HM1); try done; try (simpl; lia).
           ++ simpl. rewrite Hkeys1. by rewrite <- (assoc_L (++)).
           ++ by apply StronglySorted_inv in Hsorted as [? _].
           ++ intros k. rewrite !elem_of_cons. tauto.
        -- simpl; lia.
        -- simpl; lia.
      * eexists _, (next :: rest2), _. split_and!.
        -- do 2 f_equal. by apply Hgo.
        -- eapply (Mid_advance _ _ _ _ _ _ _ HM1); try done; try (simpl; lia).
           ++ apply StronglySorted_inv in Hsorted as [Hs Hall].
              constructor; [done|].
              apply Forall_cons in Hall as [Hn Hall].
              apply StronglySorted_inv in Hs as [_ Hs'].
              constructor; [lia|].
              eapply Forall_impl; [exact Hs'|]. simpl. intros; lia.
           ++ intros k. rewrite !elem_of_cons. tauto.
        -- simpl; lia.
        -- simpl; lia.
Qed.

Lemma loop_Mid fuel :
  ∀ visited value rest todo st,
    Mid g0 d0 visited value rest [] todo st →
    0 < desiredWorkerCount st →
    (Z.to_nat (desiredWorkerCount st) ≤ fuel)%nat →
    ∃ st', loop fuel (length visited) st = Ok st' ∧ Post g0 d0 st'.
Proof.
  induction fuel as [|fuel IH]; intros visited value rest todo st HM Hpos Hfuel.
  { lia. }
  simpl.
  assert (Hlt : (length visited <? length (keys st))%nat = true).
  { apply Nat.ltb_lt. rewrite (mid_keys _ _ _ _ _ _ _ _ HM), length_app.
    simpl. lia. }
  rewrite Hlt.
  destruct (iteration_Mid _ _ _ _ _ HM Hpos)
    as [(st' & rest' & todo' & -> & HM' & Hpos' & Hless)|(st' & -> & HP)].
  - simpl.
    replace (S (length visited)) with (length (visited ++ [value]))
      by (rewrite length_app; simpl; lia).
    eapply IH; [exact HM'|done|lia].
  - simpl. eauto.
Qed.
End Pass.

(** ** Groupings and their keys *)

Lemma concat_elem (pairs : list (Z * list string)) k l p :
  (k, l) ∈ pairs → p ∈ l → p ∈ concat (pairs.*2).
Proof.
  induction pairs as [|[k' l'] pairs IH]; simpl.
  - by intros ?%elem_of_nil.
  - intros [[= -> ->]|Hin]%elem_of_cons Hp; apply elem_of_app; auto.
Qed.

Lemma NoDup_concat_key (pairs : list (Z * list string)) :
  NoDup (pairs.*1) → NoDup (concat (pairs.*2)) →
  ∀ k1 l1 k2 l2 p,
    (k1, l1) ∈ pairs → (k2, l2) ∈ pairs → p ∈ l1 → p ∈ l2 → k1 = k2.
Proof.
  induction pairs as [|[k l] pairs IH]; simpl.
  - intros _ _ k1 l1 k2 l2 p []%elem_of_nil.
  - intros [Hk Hks]%NoDup_cons (Hl & Hdisj & Hrest)%NoDup_app k1 l1 k2 l2 p.
    intros [[= -> ->]|H1]%elem_of_cons [[= -> ->]|H2]%elem_of_cons Hp1 Hp2.
    + done.
    + exfalso. eapply Hdisj; [exact Hp1|]. by eapply concat_elem.
    + exfalso. eapply Hdisj; [exact Hp2|]. by eapply concat_elem.
    + by eapply (IH Hks Hrest).
Qed.

Lemma NoDup_concat_each (pairs : list (Z * list string)) k l :
  NoDup (concat (pairs.*2)) → (k, l) ∈ pairs → NoDup l.
Proof.
  induction pairs as [|[k' l'] pairs IH]; simpl.
  - by intros _ ?%elem_of_nil.
  - intros (Hl & _ & Hrest)%NoDup_app [[= -> ->]|Hin]%elem_of_cons; auto.
Qed.

Lemma grouping_nonempty g k l : grouping g → g !! k = Some l → l ≠ [].
Proof. intros [Hne _] Hl. by apply (Hne k l). Qed.

Lemma grouping_NoDup g k l : grouping g → g !! k = Some l → NoDup l.
Proof.
  intros [_ Hnd] Hl. eapply NoDup_concat_each; [exact Hnd|].
  by apply elem_of_map_to_list.
Qed.

Lemma grouping_unique g p k1 k2 :
  grouping g → p ∈ group g k1 → p ∈ group g k2 → k1 = k2.
Proof.
  intros [_ Hnd] (l1 & Hl1 & Hp1)%elem_of_group (l2 & Hl2 & Hp2)%elem_of_group.
  eapply (NoDup_concat_key (map_to_list g));
    [apply NoDup_fst_map_to_list|exact Hnd| | |exact Hp1|exact Hp2];
    by apply elem_of_map_to_list.
Qed.

Lemma sorted_keys_elem (g : gmap Z (list string)) k :
  k ∈ sorted_keys g ↔ is_Some (g !! k).
Proof.
  unfold sorted_keys. rewrite merge_sort_Permutation, elem_of_elements.
  apply elem_of_dom.
Qed.

Lemma StronglySorted_le_lt (l : list Z) :
  StronglySorted Z.le l → NoDup l → StronglySorted Z.lt l.
Proof.
  induction 1 as [|x l Hs IH Hall]; intros Hnd; constructor.
  - apply IH. by apply NoDup_cons in Hnd as [_ ?].
  - apply NoDup_cons in Hnd as [Hx _].
    rewrite Forall_forall in Hall. apply Forall_forall. intros y Hy.
    specialize (Hall y Hy). assert (x ≠ y) by (by intros ->). lia.
Qed.

Lemma sorted_keys_sorted (g : gmap Z (list string)) :
  StronglySorted Z.lt (sorted_keys g).
Proof.
  apply StronglySorted_le_lt.
  - apply StronglySorted_merge_sort; apply _.
  - unfold sorted_keys. rewrite merge_sort_Permutation. apply NoDup_elements.
Qed.

Lemma sorted_keys_empty (g : gmap Z (list string)) :
  sorted_keys g = [] → g = ∅.
Proof.
  intros Hnil. apply map_empty. intros k.
  apply eq_None_not_Some. rewrite <- sorted_keys_elem, Hnil.
  by intros ?%elem_of_nil.
Qed.

(** ** The pass with a positive count *)

Lemma Mid_init g d value rest :
  grouping g → fits_int g d → 0 < d →
  sorted_keys g = value :: rest →
  Mid g d [] value rest [] (group g value) (init_pass g d).
Proof.
  intros Hg [Hd Hfit] Hpos Hkeys.
  assert (Hdom : ∀ k, is_Some (g !! k) ↔ k ∈ value :: rest).
  { intros k. by rewrite <- Hkeys, sorted_keys_elem. }
  constructor; simpl.
  - done.
  - rewrite <- Hkeys. apply sorted_keys_sorted.
  - intros k. rewrite Hdom. split; [by left|]. by intros [?|[_ ?]].
  - destruct (proj2 (Hdom value)) as [l Hl]; [by left|].
    by rewrite (group_lookup _ _ _ Hl).
  - intros k l Hl. split; [by eapply grouping_nonempty|by eapply grouping_NoDup].
  - intros k p. unfold level. rewrite lookup_empty. split; [by left|].
    by intros [?|[_ ?%elem_of_nil]].
  - intros p info. by rewrite lookup_empty.
  - by intros p ?%elem_of_nil.
  - rewrite plan_sum_empty. lia.
  - lia.
  - intros k [l Hl]%Hdom. specialize (Hfit k l Hl). simpl in Hfit. lia.
  - done.
  - apply History_empty.
Qed.

Lemma run_pass_Post g d :
  grouping g → fits_int g d → g ≠ ∅ → 0 < d →
  ∃ st, run_pass g d = Ok st ∧ Post g d st.
Proof.
  intros Hg Hfit Hne Hpos. unfold run_pass.
  destruct (sorted_keys g) as [|value rest] eqn:Hkeys.
  { by apply sorted_keys_empty in Hkeys. }
  eapply (loop_Mid g d (λ p k1 k2, grouping_unique g p k1 k2 Hg) _ []).
  - by apply Mid_init.
  - done.
  - simpl. lia.
Qed.

(** ** The pass with a count that is not positive *)

Lemma range_machineSets_nonpos value machineSets index st modified :
  desiredWorkerCount st ≤ 0 →
  range_machineSets value machineSets index st modified = (st, modified).
Proof.
  intros Hd. destruct machineSets as [|m rest]; simpl; [done|].
  by replace (0 <? desiredWorkerCount st) with false
    by (symmetry; apply Z.ltb_ge; lia).
Qed.

Lemma update_keys_Ok modified index value st st' stop :
  update_keys modified index value st = Ok (st', stop) →
  machineSetsToEdit st' = machineSetsToEdit st ∧
  history st' = history st ∧
  stop = (desiredWorkerCount st <=? 0).
Proof.
  unfold update_keys.
  destruct (insert_condition modified index value (keys st)) as [ins| |];
    simpl; [|done..].
  intros [= <- <-]. by destruct ins.
Qed.

Lemma update_keys_next modified index value st next :
  keys st !! S index = Some next →
  ∃ st', update_keys modified index value st
         = Ok (st', desiredWorkerCount st <=? 0).
Proof.
  intros Hnext. unfold update_keys, insert_condition. rewrite Hnext.
  destruct (modified && _); simpl; [eauto|].
  destruct (negb _); simpl; eauto.
Qed.

Lemma iteration_nonpos index st st' stop :
  desiredWorkerCount st ≤ 0 →
  iteration index st = Ok (st', stop) →
  stop = true ∧
  machineSetsToEdit st' = machineSetsToEdit st ∧
  history st' = history st.
Proof.
  intros Hd. unfold iteration, visit_group.
  destruct (keys st !! index) as [value|]; [|done].
  assert (Hend : ∀ g modified,
    update_keys modified index value (set_groups g st) = Ok (st', stop) →
    stop = true ∧ machineSetsToEdit st' = machineSetsToEdit st ∧
    history st' = history st).
  { intros g modified (Hplan & Hhist & ->)%update_keys_Ok. simpl.
    split; [by apply Z.leb_le|done]. }
  destruct (machineSetReplicas st !! value) as [machineSets|].
  - rewrite (range_machineSets_nonpos _ _ _ _ _ Hd).
    destruct (lastIndex st =? _); [apply Hend|].
    destruct (lastIndex st + 1 <=? _); [apply Hend|done].
  - simpl. destruct st. apply Hend.
Qed.

Lemma run_pass_nonpos g d st :
  d ≤ 0 → run_pass g d = Ok st →
  machineSetsToEdit st = ∅ ∧ history st = [].
Proof.
  intros Hd. unfold run_pass.
  replace (Z.to_nat d) with 0%nat by lia. simpl.
  destruct (0 <? length (sorted_keys g))%nat.
  - destruct (iteration 0 (init_pass g d)) as [[st' stop]| |] eqn:Hit;
      simpl; [|done..].
    apply iteration_nonpos in Hit as (-> & Hplan & Hhist); [|done].
    by intros [= <-].
  - by intros [= <-].
Qed.

Lemma sorted_keys_singleton k (machineSets : list string) :
  sorted_keys {[k := machineSets]} = [k].
Proof.
  unfold sorted_keys. by rewrite dom_singleton_L, elements_singleton.
Qed.

(** With a count that is not positive and a single replica count in the
    fleet, the pass reads [keys[1]] of a one-element slice. *)
Lemma run_pass_nonpos_one_level k machineSets d :
  d ≤ 0 → ∃ msg, run_pass {[k := machineSets]} d = Panic msg.
Proof.
  intros Hd. unfold run_pass.
  replace (Z.to_nat d) with 0%nat by lia. simpl.
  unfold iteration, visit_group, init_pass. simpl.
  rewrite sorted_keys_singleton. simpl. rewrite lookup_singleton_eq.
  rewrite range_machineSets_nonpos by done.
  destruct (_ =? Z.of_nat (length machineSets) - 1); simpl; [eauto|].
  destruct (_ <=? Z.of_nat (length machineSets)); simpl; eauto.
Qed.

Lemma sorted_keys_length (g : gmap Z (list string)) :
  length (sorted_keys g) = size g.
Proof.
  unfold sorted_keys. rewrite merge_sort_Permutation.
  rewrite <- size_dom. reflexivity.
Qed.

(** With a count that is not positive and two replica counts or more, the
    pass returns the empty plan. *)
Lemma adjustMachineSets_nonpos_levels g d :
  grouping g → d ≤ 0 → (2 ≤ size g)%nat → adjustMachineSets g d = Ok ∅.
Proof.
  intros Hg Hd Hsize. rewrite <- sorted_keys_length in Hsize.
  assert (Hrun : ∃ st, run_pass g d = Ok st).
  { unfold run_pass. replace (Z.to_nat d) with 0%nat by lia. simpl.
    destruct (sorted_keys g) as [|value [|next rest]] eqn:Hkeys;
      [simpl in Hsize; lia..|]. simpl.
    unfold iteration, visit_group, init_pass. simpl. rewrite Hkeys. simpl.
    assert (Hsome : is_Some (g !! value)).
    { apply sorted_keys_elem. rewrite Hkeys. by left. }
    destruct Hsome as [machineSets Hl]. rewrite Hl.
    rewrite range_machineSets_nonpos by done.
    pose proof (grouping_nonempty _ _ _ Hg Hl) as Hne.
    assert (Hout : ∀ g', ∃ st,
      (update_keys false 0 value
         (set_groups g' (mkPass ∅ g d 0 (value :: next :: rest) []))
       ≫= λ '(st1, stop), if (stop : bool) then Ok st1 else OutOfFuel)
      = Ok st).
    { intros g'.
      destruct (update_keys_next false 0 value
                  (set_groups g' (mkPass ∅ g d 0 (value :: next :: rest) []))
                  next eq_refl) as [st' ->].
      simpl. replace (d <=? 0) with true by (symmetry; by apply Z.leb_le).
      eauto. }
    destruct (_ =? Z.of_nat (length machineSets) - 1); simpl.
    - apply Hout.
    - destruct (_ <=? Z.of_nat (length machineSets)) eqn:Hlen; simpl.
      + apply Hout.
      + apply Z.leb_gt in Hlen. destruct machineSets; simpl in *; [done|lia]. }
  destruct Hrun as [st Hst]. unfold adjustMachineSets. rewrite Hst. simpl.
  by destruct (run_pass_nonpos _ _ _ Hd Hst) as [-> _].
Qed.

(** ** What every returned pass satisfies *)

Lemma sorted_keys_of_empty : sorted_keys ∅ = [].
Proof. unfold sorted_keys. by rewrite dom_empty_L, elements_empty. Qed.

Lemma run_pass_empty d st :
  run_pass ∅ d = Ok st → machineSetsToEdit st = ∅ ∧ history st = [].
Proof.
  unfold run_pass, init_pass. simpl. rewrite sorted_keys_of_empty. simpl.
  by intros [= <-].
Qed.

Lemma run_pass_returns g d :
  grouping g → fits_int g d → g ≠ ∅ → 0 < d → ∃ st, run_pass g d = Ok st.
Proof.
  intros Hg Hfit Hne Hpos.
  destruct (run_pass_Post g d Hg Hfit Hne Hpos) as (st & Hst & _). eauto.
Qed.

Lemma skew_bounded_above_empty g : skew_bounded_above g ∅.
Proof. intros p info q kq. by rewrite lookup_empty. Qed.

Lemma Post_skew g d st : Post g d st → skew_bounded_above g (machineSetsToEdit st).
Proof.
  intros HP p info q kq Hp Hq.
  destruct (post_levels _ _ _ HP) as (value & Hin & Hout).
  pose proof (Hin _ _ Hp). unfold final_replicas.
  destruct (machineSetsToEdit st !! q) as [info'|] eqn:Hq'.
  - pose proof (Hin _ _ Hq'). lia.
  - pose proof (Hout _ _ Hq Hq'). lia.
Qed.

Lemma run_pass_summary g d st :
  grouping g → fits_int g d → run_pass g d = Ok st →
  History g (machineSetsToEdit st) (history st) ∧
  skew_bounded_above g (machineSetsToEdit st).
Proof.
  intros Hg Hfit Hst.
  assert (Hempty : machineSetsToEdit st = ∅ ∧ history st = [] →
            History g (machineSetsToEdit st) (history st) ∧
            skew_bounded_above g (machineSetsToEdit st)).
  { intros [-> ->]. split; [apply History_empty|apply skew_bounded_above_empty]. }
  destruct (decide (0 < d)) as [Hpos|Hneg].
  - destruct (decide (g = ∅)) as [->|Hne].
    + by apply Hempty, (run_pass_empty d).
    + destruct (run_pass_Post g d Hg Hfit Hne Hpos) as (st' & Hst' & HP).
      assert (st' = st) as -> by congruence.
      split; [apply (post_history _ _ _ HP)|by eapply Post_skew].
  - apply Hempty, (run_pass_nonpos g d); [lia|done].
Qed.

Lemma adjustMachineSets_run g d plan :
  adjustMachineSets g d = Ok plan →
  ∃ st, run_pass g d = Ok st ∧ machineSetsToEdit st = plan.
Proof.
  unfold adjustMachineSets. destruct (run_pass g d) as [st| |]; simpl; [|done..].
  intros [= <-]. eauto.
Qed.

(** For every grouping with at least one machine set and every positive
    count, [adjustMachineSets] returns a plan whose increments sum to the
    count, and whose [prevReplicas] are the replica counts of the
    grouping. *)
Theorem adjustMachineSets_sum g d :
  grouping g → fits_int g d → g ≠ ∅ → 0 < d →
  ∃ plan, adjustMachineSets g d = Ok plan ∧
          plan_sum plan = d ∧
          ∀ p info, plan !! p = Some info → p ∈ group g (prevReplicas info).
Proof.
  intros Hg Hfit Hne Hpos.
  destruct (run_pass_Post g d Hg Hfit Hne Hpos) as (st & Hst & HP).
  exists (machineSetsToEdit st). unfold adjustMachineSets. rewrite Hst.
  split_and!; [done|apply (post_sum _ _ _ HP)|apply (post_prev _ _ _ HP)].
Qed.

(** When [adjustMachineSets] returns for a count that is not positive, the
    plan is empty. *)
Theorem adjustMachineSets_nonpos g d plan :
  d ≤ 0 → adjustMachineSets g d = Ok plan → plan = ∅.
Proof.
  intros Hd (st & Hst & <-)%adjustMachineSets_run.
  by destruct (run_pass_nonpos g d st Hd Hst).
Qed.

(** C1, at the input where the code departs from it: one machine set at two
    replicas and a requested count of zero. The claim asks for a plan whose
    increments sum to zero; the pass panics on [keys[index+1]]. *)
Theorem adjustMachineSets_zero_one_level :
  adjustMachineSets one_level 0 = Panic "index out of range".
Proof. vm_compute. reflexivity. Qed.

(** C2, where the code departs from it: for a fleet with a single replica
    count and a requested count that is zero or negative, the pass does not
    return the empty plan, it panics. *)
Theorem adjustMachineSets_nonpos_one_level k machineSets d :
  d ≤ 0 → ∃ msg, adjustMachineSets {[k := machineSets]} d = Panic msg.
Proof.
  intros Hd. destruct (run_pass_nonpos_one_level k machineSets d Hd) as [msg Hmsg].
  exists msg. unfold adjustMachineSets. by rewrite Hmsg.
Qed.

Lemma adjustMachineSets_nonpos_one_level_witness :
  ∃ msg, adjustMachineSets two_at_three (-1) = Panic msg.
Proof. apply (adjustMachineSets_nonpos_one_level 3 ["A"; "B"]%string (-1)). lia. Defined.

(** C3, the leveling invariant: in the history of a pass, whenever a
    machine set is incremented a second time, from the level [inc_value],
    every machine set whose starting replica count is below that level has
    been incremented before; [inc_value] is the replica count that the
    machine set had before the increment. A pass over a fleet with a
    machine set and a positive count returns. *)
Theorem leveling_invariant g d :
  grouping g → fits_int g d →
  (g ≠ ∅ → 0 < d → ∃ st, run_pass g d = Ok st) ∧
  ∀ st, run_pass g d = Ok st →
    recorded g (history st) ∧ leveled g (history st).
Proof.
  intros Hg Hfit. split; [by apply run_pass_returns|].
  intros st Hst.
  destruct (run_pass_summary g d st Hg Hfit Hst) as [[_ _ Hrec Hlev _ _] _].
  split; [done|].
  intros h1 e h2 Hsplit _. by eapply Hlev.
Qed.

Lemma scenarioA_input : grouping scenarioA ∧ fits_int scenarioA 3 ∧ scenarioA ≠ ∅.
Proof.
  split_and!; [apply (bool_decide_unpack _); vm_compute; exact I..|].
  intros H. apply (f_equal size) in H. vm_compute in H. discriminate H.
Defined.

Lemma leveling_invariant_witness :
  (∃ st, run_pass scenarioA 3 = Ok st) ∧
  ∀ st, run_pass scenarioA 3 = Ok st →
    recorded scenarioA (history st) ∧ leveled scenarioA (history st).
Proof.
  destruct scenarioA_input as (Hg & Hfit & Hne).
  destruct (leveling_invariant scenarioA 3 Hg Hfit) as [Hret Hinv].
  split; [apply Hret; [done|lia]|exact Hinv].
Defined.

(** C4, the plan invariant: of two stores of a pass, the later one keeps
    every entry that the plan had after the earlier one, with the same
    [prevReplicas] and a [currentReplicas] that is not smaller, and larger
    for the machine set it stores. Every snapshot is the plan before it with
    one entry stored, and the returned plan is the last snapshot. A pass
    over a fleet with a machine set and a positive count returns. *)
Theorem plan_entries_monotone g d :
  grouping g → fits_int g d →
  (g ≠ ∅ → 0 < d → ∃ st, run_pass g d = Ok st) ∧
  ∀ st, run_pass g d = Ok st →
    monotone (history st) ∧
    last_plan (history st) = machineSetsToEdit st ∧
    ∀ h1 e h2, history st = h1 ++ e :: h2 →
      ∃ info, inc_plan e = <[inc_machineSet e := info]> (last_plan h1).
Proof.
  intros Hg Hfit. split; [by apply run_pass_returns|].
  intros st Hst.
  destruct (run_pass_summary g d st Hg Hfit Hst) as [[_ Hlast Hrec _ Hmono _] _].
  split_and!; [done|done|].
  intros h1 e h2 Hsplit. by destruct (Hrec h1 e h2 Hsplit).
Qed.

Lemma plan_entries_monotone_witness :
  (∃ st, run_pass scenarioA 3 = Ok st) ∧
  ∀ st, run_pass scenarioA 3 = Ok st →
    monotone (history st) ∧
    last_plan (history st) = machineSetsToEdit st ∧
    ∀ h1 e h2, history st = h1 ++ e :: h2 →
      ∃ info, inc_plan e = <[inc_machineSet e := info]> (last_plan h1).
Proof.
  destruct scenarioA_input as (Hg & Hfit & Hne).
  destruct (plan_entries_monotone scenarioA 3 Hg Hfit) as [Hret Hinv].
  split; [apply Hret; [done|lia]|exact Hinv].
Defined.

(** C5, scenario A: two machine sets A and B at two replicas, A listed
    first, and three more workers give the plan A: 2 to 4, B: 2 to 3. *)
Theorem scenario_A : adjustMachineSets scenarioA 3 = Ok planA.
Proof. vm_compute. reflexivity. Qed.

(** C6 as stated fails: with A at one replica, B at ten and one more
    worker, the plan is A: 1 to 2, and A and B end eight replicas apart. *)
Lemma skew_counterexample :
  grouping far_apart ∧ fits_int far_apart 1 ∧
  adjustMachineSets far_apart 1 = Ok far_plan ∧
  ¬ skew_bounded far_apart far_plan.
Proof.
  split_and!; [apply (bool_decide_unpack _); vm_compute; exact I..| |].
  - vm_compute. reflexivity.
  - intros H. specialize (H "A"%string 1 "B"%string 10).
    vm_compute in H. apply H; [left..|reflexivity].
Qed.

(** C6, amended: no machine set of the plan ends more than one replica
    above any machine set of the fleet, in the plan or not. A pass over a
    fleet with a machine set and a positive count returns. *)
Theorem skew_bounded_above_pass g d :
  grouping g → fits_int g d →
  (g ≠ ∅ → 0 < d → ∃ plan, adjustMachineSets g d = Ok plan) ∧
  ∀ plan, adjustMachineSets g d = Ok plan → skew_bounded_above g plan.
Proof.
  intros Hg Hfit. split.
  - intros Hne Hpos.
    destruct (adjustMachineSets_sum g d Hg Hfit Hne Hpos) as (plan & ? & _).
    eauto.
  - intros plan (st & Hst & <-)%adjustMachineSets_run.
    by destruct (run_pass_summary g d st Hg Hfit Hst).
Qed.

Lemma far_apart_input : grouping far_apart ∧ fits_int far_apart 1 ∧ far_apart ≠ ∅.
Proof.
  split_and!; [apply (bool_decide_unpack _); vm_compute; exact I..|].
  intros H. apply (f_equal size) in H. vm_compute in H. discriminate H.
Defined.

Lemma skew_bounded_above_pass_witness :
  (∃ plan, adjustMachineSets far_apart 1 = Ok plan) ∧
  ∀ plan, adjustMachineSets far_apart 1 = Ok plan →
    skew_bounded_above far_apart plan.
Proof.
  destruct far_apart_input as (Hg & Hfit & Hne).
  destruct (skew_bounded_above_pass far_apart 1 Hg Hfit) as [Hret Hinv].
  split; [apply Hret; [done|lia]|exact Hinv].
Defined.

(** ** The node readiness poller *)

(** X18: [isNodeReady] holds exactly of the nodes that have, anywhere among
    their conditions, one of type [Ready] with status [True]; a node
    without conditions, or whose [Ready] conditions all have another
    status, is not ready. *)
Lemma isNodeReady_spec node :
  isNodeReady node = true ↔
  ∃ c, c ∈ node_Conditions node ∧
       cond_Type c = NodeReady ∧ cond_Status c = ConditionTrue.
Proof.
  unfold isNodeReady. induction (node_Conditions node) as [|c cs IH]; simpl.
  - split; [done|]. by intros (c & ?%elem_of_nil & _).
  - destruct (String.eqb_spec (cond_Type c) NodeReady) as [Ht|Ht];
      destruct (String.eqb_spec (cond_Status c) ConditionTrue) as [Hs|Hs];
      simpl.
    { split; [|done]. intros _. exists c. split; [by left|done]. }
    all: rewrite IH; split.
    all: try (intros (c' & Hin & Hc); exists c'; split; [by right|done]).
    all: intros (c' & [->|Hin]%elem_of_cons & Ht' & Hs'); [done|eauto].
Qed.

Lemma all_ready_true items :
  all_ready items = true ↔ ∀ node, node ∈ items → isNodeReady node = true.
Proof.
  induction items as [|node items IH]; simpl.
  - split; [|done]. by intros _ node ?%elem_of_nil.
  - destruct (isNodeReady node) eqn:Hnode; simpl.
    + rewrite IH. split.
      * intros H node' [->|Hin]%elem_of_cons; auto.
      * intros H node' Hin. apply H. by right.
    + split; [done|]. intros H. rewrite <- Hnode. apply H. by left.
Qed.

Lemma all_ready_false items :
  all_ready items = false ↔
  ∃ node, node ∈ items ∧ isNodeReady node = false.
Proof.
  induction items as [|node items IH]; simpl.
  - split; [done|]. by intros (node & ?%elem_of_nil & _).
  - destruct (isNodeReady node) eqn:Hnode; simpl.
    + rewrite IH. split.
      * intros (node' & Hin & Hn). exists node'. split; [by right|done].
      * intros (node' & [->|Hin]%elem_of_cons & Hn); [congruence|eauto].
    + split; [|done]. intros _. exists node. split; [by left|done].
Qed.

Lemma ready_condition (api : nat -> NodeList) n :
  ready_at api n → nodes_condition (api n) = (true, None).
Proof.
  intros (items & -> & Hall). simpl. by rewrite (proj2 (all_ready_true items)).
Qed.

Lemma unready_condition (api : nat -> NodeList) n :
  unready_at api n → nodes_condition (api n) = (false, None).
Proof.
  intros (items & -> & Hsome). simpl.
  by rewrite (proj2 (all_ready_false items)).
Qed.

Lemma failed_condition (api : nat -> NodeList) n err :
  api n = ListFailed err → nodes_condition (api n) = (false, Some err).
Proof. by intros ->. Qed.

(** Every check is of one of three kinds. *)
Lemma check_kinds (api : nat -> NodeList) n :
  ready_at api n ∨ unready_at api n ∨ ∃ err, api n = ListFailed err.
Proof.
  unfold ready_at, unready_at. destruct (api n) as [items|err]; [|eauto].
  destruct (all_ready items) eqn:Hall.
  - left. exists items. split; [done|]. by apply all_ready_true.
  - right. left. exists items. split; [done|]. by apply all_ready_false.
Qed.

Lemma immediate_as_tick ticks condition :
  PollUntilContextTimeout ticks true condition
  = poll_ticks condition (S ticks) 0.
Proof. reflexivity. Qed.

Section Poll.
Variable api : nat -> NodeList.

Lemma poll_ticks_ready ticks :
  ∀ call i,
    (call ≤ i < call + ticks)%nat → ready_at api i →
    (∀ j, (call ≤ j < i)%nat → unready_at api j) →
    poll_ticks (λ n, nodes_condition (api n)) ticks call = (None, S i).
Proof.
  induction ticks as [|ticks IH]; intros call i Hi Hready Hbefore; [lia|].
  simpl.
  destruct (decide (i = call)) as [->|Hne].
  - by rewrite (ready_condition _ _ Hready).
  - rewrite (unready_condition api call) by (apply Hbefore; lia).
    apply IH; [lia|done|]. intros j Hj. apply Hbefore. lia.
Qed.

Lemma poll_ticks_failed ticks :
  ∀ call i err,
    (call ≤ i < call + ticks)%nat → api i = ListFailed err →
    (∀ j, (call ≤ j < i)%nat → unready_at api j) →
    poll_ticks (λ n, nodes_condition (api n)) ticks call
    = (Some (ConditionError err), S i).
Proof.
  induction ticks as [|ticks IH]; intros call i err Hi Hfail Hbefore; [lia|].
  simpl.
  destruct (decide (i = call)) as [->|Hne].
  - by rewrite (failed_condition _ _ _ Hfail).
  - rewrite (unready_condition api call) by (apply Hbefore; lia).
    apply IH; [lia|done|]. intros j Hj. apply Hbefore. lia.
Qed.

Lemma poll_ticks_timeout ticks :
  ∀ call,
    (∀ j, (call ≤ j < call + ticks)%nat → unready_at api j) →
    poll_ticks (λ n, nodes_condition (api n)) ticks call
    = (Some DeadlineExceeded, (call + ticks)%nat).
Proof.
  induction ticks as [|ticks IH]; intros call Hall; simpl.
  - by rewrite Nat.add_0_r.
  - rewrite (unready_condition api call) by (apply Hall; lia).
    rewrite IH; [f_equal; lia|]. intros j Hj. apply Hall. lia.
Qed.

(** The checks up to [ticks] either are all of a node that is not ready,
    or have a first one that is not so. *)
Lemma first_decisive ticks :
  (∀ j, (j < ticks)%nat → unready_at api j) ∨
  ∃ i, (i < ticks)%nat ∧ ¬ unready_at api i ∧
       ∀ j, (j < i)%nat → unready_at api j.
Proof.
  induction ticks as [|ticks [Hall|(i & Hi & Hdec & Hbefore)]].
  - left. intros j Hj. lia.
  - destruct (check_kinds api ticks) as [Hr|[Hu|[err He]]].
    + right. exists ticks. split_and!; [lia| |done].
      intros (items & Hitems & node & Hin & Hn).
      destruct Hr as (items' & Hitems' & Hall').
      assert (items' = items) as -> by congruence.
      rewrite (Hall' _ Hin) in Hn. done.
    + left. intros j Hj. destruct (decide (j = ticks)) as [->|]; [done|].
      apply Hall. lia.
    + right. exists ticks. split_and!; [lia| |done].
      intros (items & Hitems & _). congruence.
  - right. exists i. split_and!; [lia|done|done].
Qed.
End Poll.

Lemma waitForNodes_cases (api : nat -> NodeList) ticks :
  (∃ i, (i ≤ ticks)%nat ∧ ready_at api i ∧
        (∀ j, (j < i)%nat → unready_at api j) ∧
        waitForNodes api ticks = (None, S i)) ∨
  ((∀ i, (i ≤ ticks)%nat → unready_at api i) ∧
   waitForNodes api ticks = (Some DeadlineExceeded, S ticks)) ∨
  (∃ i err, (i ≤ ticks)%nat ∧ api i = ListFailed err ∧
            (∀ j, (j < i)%nat → unready_at api j) ∧
            waitForNodes api ticks = (Some (ConditionError err), S i)).
Proof.
  unfold waitForNodes. rewrite immediate_as_tick.
  destruct (first_decisive api (S ticks)) as [Hall|(i & Hi & Hdec & Hbefore)].
  - right. left. split; [intros i Hi; apply Hall; lia|].
    rewrite poll_ticks_timeout; [done|]. intros j Hj. apply Hall. lia.
  - destruct (check_kinds api i) as [Hr|[Hu|[err He]]]; [|done|].
    + left. exists i. split_and!; [lia|done|done|].
      apply poll_ticks_ready; [lia|done|]. intros j Hj. apply Hbefore. lia.
    + right. right. exists i, err. split_and!; [lia|done|done|].
      apply poll_ticks_failed; [lia|done|]. intros j Hj. apply Hbefore. lia.
Qed.

(** C7 as stated fails: two nodes that are ready in turn, never at the same
    check, make [waitForNodes] return the deadline error, although each of
    them is observed ready at a check within the timeout: no node is "never
    observed ready". *)
Lemma timeout_counterexample :
  waitForNodes alternating 3 = (Some DeadlineExceeded, 4%nat) ∧
  observed_ready alternating 0 "node-1" ∧
  observed_ready alternating 1 "node-2" ∧
  ¬ ∃ name, never_observed_ready alternating 3 name.
Proof.
  assert (observed_ready alternating 0 "node-1") as H1.
  { exists [ready_node "node-1"; unready_node "node-2"], (ready_node "node-1").
    split_and!; [reflexivity|by left|reflexivity..]. }
  assert (observed_ready alternating 1 "node-2") as H2.
  { exists [unready_node "node-1"; ready_node "node-2"], (ready_node "node-2").
    split_and!; [reflexivity|by right; left|reflexivity..]. }
  split_and!; [reflexivity|done|done|].
  intros (name & (i & Hi & items & node & Hl & Hin & Hname) & Hnever).
  assert (name = "node-1"%string ∨ name = "node-2"%string) as [->| ->].
  { assert (i = 0 ∨ i = 1 ∨ i = 2 ∨ i = 3)%nat as [->|[->|[->| ->]]] by lia.
    all: injection Hl as <-.
    all: apply elem_of_cons in Hin as [->|Hin]; [left; by rewrite <- Hname|].
    all: apply list_elem_of_singleton in Hin as ->; right; by rewrite <- Hname. }
  - apply (Hnever 0%nat); [lia|done].
  - apply (Hnever 1%nat); [lia|done].
Qed.

(** C7, amended: [waitForNodes] returns nil exactly when one of the checks made
    within the timeout, the immediate one or one of the [ticks] that
    follow, finds every listed node ready, all checks before it having
    found a node that is not; it returns the deadline error exactly when
    every check within the timeout finds a node that is not ready; the only
    other result is the error of the list call that failed. *)
Theorem waitForNodes_outcome (api : nat -> NodeList) ticks :
  (fst (waitForNodes api ticks) = None ↔
     ∃ i, (i ≤ ticks)%nat ∧ ready_at api i ∧
          ∀ j, (j < i)%nat → unready_at api j) ∧
  (fst (waitForNodes api ticks) = Some DeadlineExceeded ↔
     ∀ i, (i ≤ ticks)%nat → unready_at api i) ∧
  (∀ err, fst (waitForNodes api ticks) = Some (ConditionError err) ↔
     ∃ i, (i ≤ ticks)%nat ∧ api i = ListFailed err ∧
          ∀ j, (j < i)%nat → unready_at api j).
Proof.
  split; [split|split; [split|intros err; split]].
  - intros Hres.
    destruct (waitForNodes_cases api ticks)
      as [(i & ? & ? & ? & _)|[[_ Heq]|(i & err & _ & _ & _ & Heq)]];
      [eauto|rewrite Heq in Hres; done..].
  - intros (i & Hi & Hready & Hbefore).
    unfold waitForNodes. rewrite immediate_as_tick.
    rewrite (poll_ticks_ready api (S ticks) 0 i); [done|lia|done|].
    intros j Hj. apply Hbefore. lia.
  - intros Hres.
    destruct (waitForNodes_cases api ticks)
      as [(i & _ & _ & _ & Heq)|[[? _]|(i & err & _ & _ & _ & Heq)]];
      [rewrite Heq in Hres; done|done|rewrite Heq in Hres; done].
  - intros Hall. unfold waitForNodes. rewrite immediate_as_tick.
    rewrite poll_ticks_timeout; [done|]. intros j Hj. apply Hall. lia.
  - intros Hres.
    destruct (waitForNodes_cases api ticks)
      as [(i & _ & _ & _ & Heq)|[[_ Heq]|(i & err' & ? & ? & ? & Heq)]];
      [rewrite Heq in Hres; done..|].
    rewrite Heq in Hres. simpl in Hres. injection Hres as ->. eauto.
  - intros (i & Hi & Hfail & Hbefore).
    unfold waitForNodes. rewrite immediate_as_tick.
    rewrite (poll_ticks_failed api (S ticks) 0 i err); [done|lia|done|].
    intros j Hj. apply Hbefore. lia.
Qed.

(** C10: when the first listing has no node, [waitForNodes] returns nil
    from its immediate check, before any tick. *)
Theorem waitForNodes_no_nodes (api : nat -> NodeList) ticks :
  api O = Listed [] → waitForNodes api ticks = (None, 1%nat).
Proof.
  intros H. unfold waitForNodes, PollUntilContextTimeout. by rewrite H.
Qed.

Lemma waitForNodes_no_nodes_witness :
  waitForNodes (λ _, Listed []) 0 = (None, 1%nat).
Proof. apply (waitForNodes_no_nodes (λ _, Listed []) 0). reflexivity. Defined.

(** Scenario B: with five ticks of timeout, the poller returns nil at the
    third tick, its fourth check. *)
Lemma scenario_B : waitForNodes scenarioB 5 = (None, 4%nat).
Proof. reflexivity. Qed.

(** ** The retry loop *)

Lemma last_nth (l : list nat) :
  List.last l O = nth (length l - 1) l O.
Proof.
  induction l as [|x [|y l] IH]; [done..|].
  change (List.last (x :: y :: l) O) with (List.last (y :: l) O).
  rewrite IH. simpl. by rewrite Nat.sub_0_r.
Qed.

Lemma wait_time_backoff wait_times i :
  wait_time wait_times i = backoff_at wait_times i.
Proof.
  unfold wait_time, backoff_at.
  destruct (Nat.ltb_spec i (length wait_times)) as [Hlt|Hge].
  - by replace (i `min` (length wait_times - 1))%nat with i by lia.
  - replace (i `min` (length wait_times - 1))%nat
      with (length wait_times - 1)%nat by lia.
    apply last_nth.
Qed.

Lemma attempts_loop_succeeds max_retries wait_times command k :
  ∀ first more st,
    (∀ i, (calls st ≤ i < calls st + k)%nat → command i = false) →
    command (calls st + k)%nat = true →
    (k < more)%nat → (first + k ≤ max_retries)%nat →
    attempts_loop max_retries wait_times command (seq first more) st
    = (Break,
       mkRetry (counter st + k)
         (slept st ++ (wait_time wait_times <$> seq (counter st) k))
         (calls st + S k)).
Proof.
  induction k as [|k IH]; intros first more st Hfail Hok Hmore Hmax;
    (destruct more as [|more]; [lia|]); simpl.
  - rewrite Nat.add_0_r in Hok. rewrite Hok.
    by rewrite !Nat.add_0_r, app_nil_r, Nat.add_1_r.
  - rewrite Hfail by lia.
    replace (first <? max_retries)%nat with true
      by (symmetry; apply Nat.ltb_lt; lia).
    rewrite IH; simpl.
    + f_equal. f_equal; [lia| |lia]. by rewrite <- (assoc_L (++)).
    + intros i Hi. apply Hfail. lia.
    + rewrite <- Hok. f_equal. lia.
    + lia.
    + lia.
Qed.

(** C8: a command that fails on its first [k] calls, [k] below
    [MAX_RETRIES], and succeeds on the next one ends the loop by [break]
    after [k+1] calls, and the loop has slept
    [WAIT_TIMES[min(i, len-1)]] for [i] from [0] to [k-1], with no sleep
    after the call that succeeds. *)
Theorem retry_vm_succeeds command k :
  (k < MAX_RETRIES)%nat → fails_then_succeeds command k →
  ∃ st, retry_vm command = (Break, st) ∧
        calls st = S k ∧
        slept st = backoff_at WAIT_TIMES <$> seq 0 k ∧
        total_sleep st = sum_list (backoff_at WAIT_TIMES <$> seq 0 k).
Proof.
  intros Hk [Hfail Hok]. unfold retry_vm, retry.
  rewrite (attempts_loop_succeeds _ _ _ k); simpl; [|auto with lia..].
  eexists. split; [done|]. unfold total_sleep. simpl.
  assert (Heq : wait_time WAIT_TIMES <$> seq 0 k
                = backoff_at WAIT_TIMES <$> seq 0 k).
  { apply list_fmap_ext. intros _ i _. apply wait_time_backoff. }
  rewrite Heq. done.
Qed.

Lemma retry_vm_succeeds_witness :
  ∃ st, retry_vm (λ i, (2 <=? i)%nat) = (Break, st) ∧
        calls st = 3%nat ∧
        slept st = backoff_at WAIT_TIMES <$> seq 0 2 ∧
        total_sleep st = sum_list (backoff_at WAIT_TIMES <$> seq 0 2).
Proof.
  apply (retry_vm_succeeds (λ i, (2 <=? i)%nat) 2).
  - unfold MAX_RETRIES. lia.
  - split; [|reflexivity]. intros i Hi. apply Nat.leb_gt. exact Hi.
Defined.

(** When the command succeeds at once for every VM, the script sleeps for
    none and ends with status 0. *)
Lemma check_vms_first_try command vms :
  (∀ vm, vm ∈ vms → command vm O = true) →
  check_vms command vms = (0%nat, replicate (length vms) []).
Proof.
  induction vms as [|vm vms IH]; intros Hok; simpl; [done|].
  unfold retry_vm, retry.
  rewrite (attempts_loop_succeeds _ _ _ 0); simpl.
  - rewrite IH; [done|]. intros vm' Hin. apply Hok. by right.
  - intros i Hi. lia.
  - apply Hok. by left.
  - unfold MAX_RETRIES. lia.
  - unfold MAX_RETRIES. lia.
Qed.

(** ** The orchestrator *)

(** C9: whatever [measurements.Stop()] returns, the run goes on with the
    same calls: the post-scale snapshot, the diff of the machines, the
    finalization of the metrics with the same plan, and the revert of the
    plan when [GC] is set. An error adds its log entry and nothing else. *)
Theorem stop_failure_not_fatal {MachineDetails : Type}
    (c : Collaborators MachineDetails) (scaleConfig : ScaleConfig) plan :
  adjustMachineSets (machineSetDetails c) (AdditionalWorkerNodes scaleConfig)
  = Ok plan →
  ∃ before after,
    after = [GetMachines;
             DiscardPreviousMachines MachineDetails
               (prevMachineDetails MachineDetails c)
               (scaledMachineDetails MachineDetails c);
             FinalizeMetrics MachineDetails plan
               (scaledMachineDetails MachineDetails c)
               (Indexer scaleConfig) (amiID MachineDetails c)]
            ++ (if GC scaleConfig
                then [LogInfo "Restoring machine sets to previous state";
                      EditMachineSets plan false]
                else []) ∧
    OrchestrateWorkload (with_stop c None) scaleConfig
    = Ok (before ++ [MeasurementsStop] ++ after) ∧
    ∀ err,
      OrchestrateWorkload (with_stop c (Some err)) scaleConfig
      = Ok (before ++ [MeasurementsStop; LogError err] ++ after).
Proof.
  intros Hplan.
  exists [GetMachineSets; GetMachines; SetupMetrics; MeasurementsStart;
          LogInfo "Updating machinessets evenly to reach desired count";
          EditMachineSets plan true],
         (after_stop (with_stop c None) scaleConfig plan).
  split; [reflexivity|].
  unfold OrchestrateWorkload. simpl. rewrite Hplan.
  split; [|intros err]; reflexivity.
Qed.

Lemma stop_failure_not_fatal_witness :
  ∃ before after,
    after = [GetMachines;
             DiscardPreviousMachines unit tt tt;
             FinalizeMetrics unit planA tt "local" "ami"]
            ++ [LogInfo "Restoring machine sets to previous state";
                EditMachineSets planA false] ∧
    OrchestrateWorkload
      (with_stop (mkCollaborators unit scenarioA tt tt "ami" None) None)
      (mkScaleConfig 3 true "local")
    = Ok (before ++ [MeasurementsStop] ++ after) ∧
    ∀ err,
      OrchestrateWorkload
        (with_stop (mkCollaborators unit scenarioA tt tt "ami" None)
           (Some err))
        (mkScaleConfig 3 true "local")
      = Ok (before ++ [MeasurementsStop; LogError err] ++ after).
Proof.
  apply (stop_failure_not_fatal
           (mkCollaborators unit scenarioA tt tt "ami" None)
           (mkScaleConfig 3 true "local") planA).
  vm_compute. reflexivity.
Defined.

(** * Further properties *)

(** ** The parts of an iteration *)

Lemma visit_group_parts value st st1 modified :
  visit_group value st = Ok (st1, modified) →
  ∃ st',
    machineSetsToEdit st1 = machineSetsToEdit st' ∧
    history st1 = history st' ∧
    desiredWorkerCount st1 = desiredWorkerCount st' ∧
    match machineSetReplicas st !! value with
    | Some machineSets =>
        range_machineSets value machineSets 0 st false = (st', modified)
    | None => st' = st ∧ modified = false
    end.
Proof.
  unfold visit_group.
  destruct (machineSetReplicas st !! value) as [machineSets|].
  - destruct (range_machineSets value machineSets 0 st false)
      as [st' modified'] eqn:Hrun.
    destruct (lastIndex st' =? _).
    + intros [= <- <-]. by exists st'.
    + destruct (lastIndex st' + 1 <=? _); [|done].
      intros [= <- <-]. by exists st'.
  - intros [= <- <-]. by exists st.
Qed.

Lemma iteration_parts index st st' stop :
  iteration index st = Ok (st', stop) →
  ∃ value st1 modified,
    keys st !! index = Some value ∧
    visit_group value st = Ok (st1, modified) ∧
    machineSetsToEdit st' = machineSetsToEdit st1 ∧
    history st' = history st1 ∧
    stop = (desiredWorkerCount st1 <=? 0).
Proof.
  unfold iteration. destruct (keys st !! index) as [value|]; [|done].
  destruct (visit_group value st) as [[st1 modified]| |] eqn:Hvisit;
    simpl; [|done..].
  intros (Hplan & Hhist & Hstop)%update_keys_Ok.
  exists value, st1, modified. by split_and!.
Qed.

(** ** Invariants of the plan and the history *)

Section Invariant.
Variable g0 : gmap Z (list string).
Variable d0 : Z.
Hypothesis g0_unique :
  ∀ p k1 k2, p ∈ group g0 k1 → p ∈ group g0 k2 → k1 = k2.

Variable Q : gmap string MachineSetInfo → list Increment → Prop.

Hypothesis Q_step :
  ∀ visited value rest served m todo st,
    Mid g0 d0 visited value rest served (m :: todo) st →
    0 < desiredWorkerCount st →
    Q (machineSetsToEdit st) (history st) →
    Q (machineSetsToEdit (increment value (length served) m st))
      (history (increment value (length served) m st)).

Lemma range_machineSets_Q visited value rest todo :
  ∀ served st modified st' modified',
    Mid g0 d0 visited value rest served todo st →
    Q (machineSetsToEdit st) (history st) →
    range_machineSets value todo (length served) st modified
    = (st', modified') →
    Q (machineSetsToEdit st') (history st').
Proof.
  induction todo as [|m todo IH];
    intros served st modified st' modified' HM HQ; simpl.
  - by intros [= <- _].
  - destruct (0 <? desiredWorkerCount st) eqn:Hpos.
    + apply Z.ltb_lt in Hpos.
      replace (S (length served)) with (length (served ++ [m]))
        by (rewrite length_app; simpl; lia).
      apply IH.
      * by apply (Mid_step g0 d0 g0_unique).
      * by eapply Q_step.
    + by intros [= <- _].
Qed.

Lemma iteration_Q visited value rest todo st st' stop :
  Mid g0 d0 visited value rest [] todo st →
  Q (machineSetsToEdit st) (history st) →
  iteration (length visited) st = Ok (st', stop) →
  Q (machineSetsToEdit st') (history st').
Proof.
  intros HM HQ (value' & st1 & modified & Hkey & Hvisit & -> & -> & _)%iteration_parts.
  rewrite (mid_keys _ _ _ _ _ _ _ _ HM), keys_lookup_here in Hkey.
  injection Hkey as <-.
  apply visit_group_parts in Hvisit as (st2 & -> & -> & _ & Hrun).
  rewrite (mid_here _ _ _ _ _ _ _ _ HM) in Hrun. simpl in Hrun.
  by eapply (range_machineSets_Q _ _ _ _ []).
Qed.

Lemma loop_Q fuel :
  ∀ visited value rest todo st st',
    Mid g0 d0 visited value rest [] todo st →
    0 < desiredWorkerCount st →
    Q (machineSetsToEdit st) (history st) →
    loop fuel (length visited) st = Ok st' →
    Q (machineSetsToEdit st') (history st').
Proof.
  induction fuel as [|fuel IH];
    intros visited value rest todo st st' HM Hpos HQ; simpl; [done|].
  assert (Hlt : (length visited <? length (keys st))%nat = true).
  { apply Nat.ltb_lt. rewrite (mid_keys _ _ _ _ _ _ _ _ HM), length_app.
    simpl. lia. }
  rewrite Hlt.
  destruct (iteration_Mid g0 d0 g0_unique _ _ _ _ _ HM Hpos)
    as [(st1 & rest' & todo' & Hit & HM' & Hpos' & _)|(st1 & Hit & _)];
    pose proof (iteration_Q _ _ _ _ _ _ _ HM HQ Hit) as HQ';
    rewrite Hit; simpl.
  - replace (S (length visited)) with (length (visited ++ [value]))
      by (rewrite length_app; simpl; lia).
    by eapply IH.
  - by intros [= <-].
Qed.
End Invariant.

(** Every property of the plan and the history that holds of the empty
    plan and is kept by each increment, under the invariant of the pass,
    holds of the pass that returns. *)
Lemma run_pass_Q g d (Q : gmap string MachineSetInfo → list Increment → Prop)
    st :
  grouping g → fits_int g d →
  (∀ visited value rest served m todo st,
     Mid g d visited value rest served (m :: todo) st →
     0 < desiredWorkerCount st →
     Q (machineSetsToEdit st) (history st) →
     Q (machineSetsToEdit (increment value (length served) m st))
       (history (increment value (length served) m st))) →
  Q ∅ [] →
  run_pass g d = Ok st →
  Q (machineSetsToEdit st) (history st).
Proof.
  intros Hg Hfit Hstep Hinit Hst.
  destruct (decide (0 < d)) as [Hpos|Hneg].
  - destruct (sorted_keys g) as [|value rest] eqn:Hkeys.
    + apply sorted_keys_empty in Hkeys as ->.
      by destruct (run_pass_empty d st Hst) as [-> ->].
    + eapply (loop_Q g d (λ p k1 k2, grouping_unique g p k1 k2 Hg) Q Hstep
                _ [] value rest);
        [by apply Mid_init|done|done|exact Hst].
  - destruct (run_pass_nonpos g d st) as [-> ->]; [lia|done|done].
Qed.

(** ** What a pass with a positive count returns *)

Lemma increments_of_snoc p h e :
  increments_of p (h ++ [e])
  = (increments_of p h + if decide (inc_machineSet e = p) then 1 else 0)%nat.
Proof.
  unfold increments_of. rewrite filter_app, length_app. f_equal.
  rewrite filter_cons, filter_nil. by destruct (decide _).
Qed.

Lemma counted_step g d visited value rest served m todo st :
  (∀ p k1 k2, p ∈ group g k1 → p ∈ group g k2 → k1 = k2) →
  Mid g d visited value rest served (m :: todo) st →
  0 < desiredWorkerCount st →
  counted (machineSetsToEdit st) (history st) →
  counted (machineSetsToEdit (increment value (length served) m st))
    (history (increment value (length served) m st)).
Proof.
  intros Huniq HM Hpos Hc p.
  destruct (Mid_next g d _ _ _ _ _ _ _ HM) as (_ & _ & Hlev).
  destruct (Mid_no_wrap g d _ _ _ _ _ _ HM Hpos) as [Hadd _].
  rewrite increment_history, increment_plan, increments_of_snoc. simpl.
  specialize (Hc p). destruct (decide (m = p)) as [->|Hne].
  - rewrite lookup_insert_eq. simpl. rewrite Hadd.
    destruct (machineSetsToEdit st !! p) as [a|] eqn:Ha.
    + rewrite (level_lookup _ _ _ _ _ Hlev Ha) in Hc. lia.
    + rewrite Hc. simpl. lia.
  - rewrite lookup_insert_ne by done.
    destruct (machineSetsToEdit st !! p); [|lia].
    by rewrite Nat.add_0_r.
Qed.

Lemma run_pass_counted g d st :
  grouping g → fits_int g d → run_pass g d = Ok st →
  counted (machineSetsToEdit st) (history st).
Proof.
  intros Hg Hfit Hst. apply (run_pass_Q g d counted st Hg Hfit); [|done|done].
  intros visited value rest served m todo st0.
  apply counted_step. intros p k1 k2. by apply grouping_unique.
Qed.

Lemma plan_sum_ge_size (plan : gmap string MachineSetInfo) :
  (∀ p info, plan !! p = Some info →
     prevReplicas info < currentReplicas info) →
  Z.of_nat (size plan) ≤ plan_sum plan.
Proof.
  induction plan as [|p info plan Hnone IH] using map_ind; intros Hall.
  - by rewrite map_size_empty, plan_sum_empty.
  - rewrite map_size_insert_None, plan_sum_insert by done.
    pose proof (Hall p info (lookup_insert_eq _ _ _)).
    assert (Z.of_nat (size plan) ≤ plan_sum plan); [|lia].
    apply IH. intros q info' Hq. apply (Hall q).
    rewrite lookup_insert_ne; [done|]. intros ->. congruence.
Qed.

Lemma positive_plan g d :
  grouping g → fits_int g d → g ≠ ∅ → 0 < d →
  ∃ plan, adjustMachineSets g d = Ok plan ∧
          plan_sum plan = d ∧
          (1 ≤ Z.of_nat (size plan) ≤ d) ∧
          ∀ p info, plan !! p = Some info →
            p ∈ group g (prevReplicas info) ∧
            prevReplicas info < currentReplicas info.
Proof.
  intros Hg Hfit Hne Hpos.
  destruct (run_pass_Post g d Hg Hfit Hne Hpos) as (st & Hst & HP).
  pose proof (run_pass_counted g d st Hg Hfit Hst) as Hc.
  assert (Hup : ∀ p info, machineSetsToEdit st !! p = Some info →
                  prevReplicas info < currentReplicas info).
  { intros p info Hinfo. specialize (Hc p). rewrite Hinfo in Hc. lia. }
  exists (machineSetsToEdit st). unfold adjustMachineSets. rewrite Hst.
  split_and!; [done|apply (post_sum _ _ _ HP)| | |].
  - destruct (decide (size (machineSetsToEdit st) = 0%nat)) as [Hz|]; [|lia].
    apply map_size_empty_inv in Hz.
    pose proof (post_sum _ _ _ HP) as Hsum.
    rewrite Hz, plan_sum_empty in Hsum. lia.
  - pose proof (post_sum _ _ _ HP) as Hsum.
    pose proof (plan_sum_ge_size _ Hup). lia.
  - intros p info Hinfo. split; [by eapply post_prev|by eapply Hup].
Qed.

(** X1: for a grouping with at least one machine set and a positive count,
    [adjustMachineSets] returns a plan whose increments sum to the count;
    the plan has at least one and at most [d] machine sets, each with the
    replica count of its group as [prevReplicas] and a larger
    [currentReplicas]. *)
Theorem adjustMachineSets_positive g d :
  grouping g → fits_int g d → g ≠ ∅ → 0 < d →
  ∃ plan, adjustMachineSets g d = Ok plan ∧
          plan_sum plan = d ∧
          (1 ≤ Z.of_nat (size plan) ≤ d) ∧
          ∀ p info, plan !! p = Some info →
            p ∈ group g (prevReplicas info) ∧
            prevReplicas info < currentReplicas info.
Proof. apply positive_plan. Qed.

Lemma adjustMachineSets_positive_witness :
  ∃ plan, adjustMachineSets scenarioA 3 = Ok plan ∧
          plan_sum plan = 3 ∧
          (1 ≤ Z.of_nat (size plan) ≤ 3) ∧
          ∀ p info, plan !! p = Some info →
            p ∈ group scenarioA (prevReplicas info) ∧
            prevReplicas info < currentReplicas info.
Proof.
  destruct scenarioA_input as (Hg & Hfit & Hne).
  apply (adjustMachineSets_positive scenarioA 3 Hg Hfit Hne). lia.
Defined.

(** X2: in a pass that returns, every entry of the plan has grown from
    [prevReplicas] by exactly the number of increments of its machine set,
    which is at least one; a machine set without an entry has had none. A
    pass over a fleet with a machine set and a positive count returns. *)
Theorem plan_counts_increments g d :
  grouping g → fits_int g d →
  (g ≠ ∅ → 0 < d → ∃ st, run_pass g d = Ok st) ∧
  ∀ st, run_pass g d = Ok st →
    counted (machineSetsToEdit st) (history st).
Proof.
  intros Hg Hfit. split; [by apply run_pass_returns|].
  intros st Hst. by apply (run_pass_counted g d).
Qed.

Lemma plan_counts_increments_witness :
  (∃ st, run_pass scenarioA 3 = Ok st) ∧
  ∀ st, run_pass scenarioA 3 = Ok st →
    counted (machineSetsToEdit st) (history st).
Proof.
  destruct scenarioA_input as (Hg & Hfit & Hne).
  destruct (plan_counts_increments scenarioA 3 Hg Hfit) as [Hret Hinv].
  split; [apply Hret; [done|lia]|exact Hinv].
Defined.

(** ** The edges of the balancer: no machine set, a count that is not
    positive, a count within the lowest group *)

Lemma map_size_one (g : gmap Z (list string)) :
  size g = 1%nat → ∃ k machineSets, g = {[k := machineSets]}.
Proof.
  intros Hsize.
  destruct (map_choose g) as (k & machineSets & Hk).
  { apply map_size_non_empty_iff. lia. }
  exists k, machineSets.
  rewrite <- (insert_delete_id g k machineSets Hk).
  replace (delete k g) with (∅ : gmap Z (list string)); [apply insert_empty|].
  symmetry. apply map_size_empty_inv.
  rewrite map_size_delete, Hk. simpl. lia.
Qed.

Lemma adjustMachineSets_empty d : adjustMachineSets ∅ d = Ok ∅.
Proof.
  unfold adjustMachineSets, run_pass, init_pass. simpl.
  rewrite sorted_keys_of_empty. reflexivity.
Qed.

(** X3: with no machine set at all, [adjustMachineSets] returns the empty
    plan whatever the count, and the pass makes no increment: the request
    is dropped without an error. *)
Theorem adjustMachineSets_no_pools d :
  adjustMachineSets ∅ d = Ok ∅ ∧
  ∃ st, run_pass ∅ d = Ok st ∧ history st = [] ∧ desiredWorkerCount st = d.
Proof.
  split; [apply adjustMachineSets_empty|].
  unfold run_pass, init_pass. simpl. rewrite sorted_keys_of_empty. simpl.
  eexists. split; [reflexivity|]. by split.
Qed.

(** X4: for a count that is zero or negative, [adjustMachineSets] returns
    the empty plan when the grouping has no replica count or more than one,
    and panics when it has exactly one. *)
Theorem adjustMachineSets_nonpositive g d :
  grouping g → d ≤ 0 →
  (size g ≠ 1%nat → adjustMachineSets g d = Ok ∅) ∧
  (size g = 1%nat → ∃ msg, adjustMachineSets g d = Panic msg).
Proof.
  intros Hg Hd. split.
  - intros Hsize. destruct (decide (size g = 0%nat)) as [Hz|Hnz].
    + apply map_size_empty_inv in Hz as ->. apply adjustMachineSets_empty.
    + apply adjustMachineSets_nonpos_levels; [done|done|lia].
  - intros (k & machineSets & ->)%map_size_one.
    destruct (run_pass_nonpos_one_level k machineSets d Hd) as [msg Hmsg].
    exists msg. unfold adjustMachineSets. by rewrite Hmsg.
Qed.

Lemma adjustMachineSets_nonpositive_witness :
  (size far_apart ≠ 1%nat → adjustMachineSets far_apart 0 = Ok ∅) ∧
  (size far_apart = 1%nat → ∃ msg, adjustMachineSets far_apart 0 = Panic msg).
Proof.
  apply (adjustMachineSets_nonpositive far_apart 0).
  - apply (bool_decide_unpack _). vm_compute. exact I.
  - lia.
Defined.

Lemma sorted_keys_lowest g k :
  lowest g k → ∃ rest, sorted_keys g = k :: rest.
Proof.
  intros [Hk Hlow].
  pose proof (sorted_keys_sorted g) as Hsorted.
  apply sorted_keys_elem in Hk.
  destruct (sorted_keys g) as [|head rest] eqn:Hkeys.
  { by apply elem_of_nil in Hk. }
  exists rest. f_equal.
  assert (Hhead : is_Some (g !! head)).
  { apply sorted_keys_elem. rewrite Hkeys. by left. }
  destruct Hhead as [l Hl]. pose proof (Hlow head l Hl) as Hle. simpl in Hle.
  apply elem_of_cons in Hk as [->|Hk]; [done|].
  apply StronglySorted_inv in Hsorted as [_ Hall].
  rewrite Forall_forall in Hall. specialize (Hall k Hk). lia.
Qed.

Lemma increment_count value j m st :
  desiredWorkerCount (increment value j m st)
  = int_sub (desiredWorkerCount st) 1.
Proof. reflexivity. Qed.

Lemma range_machineSets_take value machineSets :
  ∀ index st modified st' modified',
    NoDup machineSets →
    (∀ p, p ∈ machineSets → machineSetsToEdit st !! p = None) →
    0 ≤ desiredWorkerCount st ≤ MaxInt →
    MinInt ≤ value < MaxInt →
    range_machineSets value machineSets index st modified = (st', modified') →
    desiredWorkerCount st'
    = desiredWorkerCount st
      - Z.of_nat (length (take (Z.to_nat (desiredWorkerCount st)) machineSets))
    ∧ ∀ p, machineSetsToEdit st' !! p
           = if bool_decide
                  (p ∈ take (Z.to_nat (desiredWorkerCount st)) machineSets)
             then Some (mkMachineSetInfo value (value + 1))
             else machineSetsToEdit st !! p.
Proof.
  induction machineSets as [|m machineSets IH];
    intros index st modified st' modified' Hnd Hfresh Hcount Hvalue; simpl.
  - intros [= <- _]. rewrite take_nil. simpl. split; [lia|done].
  - apply NoDup_cons in Hnd as [Hm Hnd].
    destruct (0 <? desiredWorkerCount st) eqn:Hpos.
    + apply Z.ltb_lt in Hpos. intros Hrun.
      assert (Hadd : int_add value 1 = value + 1).
      { apply int_add_small. unfold MinInt, MaxInt in *. lia. }
      assert (Hsub : int_sub (desiredWorkerCount st) 1
                     = desiredWorkerCount st - 1).
      { apply int_sub_small. unfold MinInt, MaxInt in *. lia. }
      apply IH in Hrun as [Hd Hplan]; [|done| | |done].
      * rewrite increment_count, Hsub in Hd, Hplan.
        replace (Z.to_nat (desiredWorkerCount st))
          with (S (Z.to_nat (desiredWorkerCount st - 1))) by lia.
        simpl. split; [lia|]. intros p. rewrite Hplan, increment_plan.
        rewrite (Hfresh m) by (by left). unfold stored. rewrite Hadd.
        destruct (decide (p = m)) as [->|Hne].
        -- rewrite lookup_insert_eq.
           rewrite (bool_decide_eq_true_2 (m ∈ m :: _)) by (by left).
           rewrite bool_decide_eq_false_2; [done|].
           intros (i & Hi & _)%elem_of_take.
           apply Hm. by eapply list_elem_of_lookup_2.
        -- rewrite lookup_insert_ne by done.
           destruct (decide (p ∈ take (Z.to_nat (desiredWorkerCount st - 1))
                                   machineSets)) as [Hin|Hin].
           ++ rewrite !bool_decide_eq_true_2; [done|by right|done].
           ++ rewrite !bool_decide_eq_false_2; [done| |done].
              intros [?|?]%elem_of_cons; done.
      * intros p Hp. rewrite increment_plan, lookup_insert_ne.
        -- apply Hfresh. by right.
        -- intros ->. done.
      * rewrite increment_count, Hsub. lia.
    + apply Z.ltb_ge in Hpos. intros [= <- _].
      replace (desiredWorkerCount st) with 0 by lia. simpl.
      split; [lia|done].
Qed.

(** X5: when the count is positive and at most the size of the group with
    the lowest replica count [k], the plan is exactly the first [d] machine
    sets of that group, in the order of the listing, each from [k] to
    [k+1]. *)
Theorem adjustMachineSets_lowest_group g d k machineSets :
  grouping g → fits_int g d → lowest g k →
  g !! k = Some machineSets →
  0 < d ≤ Z.of_nat (length machineSets) →
  ∃ plan, adjustMachineSets g d = Ok plan ∧
    ∀ p, plan !! p
         = if bool_decide (p ∈ take (Z.to_nat d) machineSets)
           then Some (mkMachineSetInfo k (k + 1))
           else None.
Proof.
  intros Hg Hfit Hlow Hk Hd.
  assert (Hne : g ≠ ∅) by (intros ->; by rewrite lookup_empty in Hk).
  destruct (run_pass_returns g d Hg Hfit Hne) as [st Hst]; [lia|].
  exists (machineSetsToEdit st). unfold adjustMachineSets. rewrite Hst.
  split; [done|].
  destruct (sorted_keys_lowest g k Hlow) as [rest Hkeys].
  unfold run_pass in Hst.
  remember (init_pass g d) as st0 eqn:Hst0.
  assert (Hkeys0 : keys st0 = k :: rest) by (by subst st0).
  assert (Hplan0 : machineSetsToEdit st0 = ∅) by (by subst st0).
  assert (Hgroups0 : machineSetReplicas st0 = g) by (by subst st0).
  assert (Hcount0 : desiredWorkerCount st0 = d) by (by subst st0).
  clear Hst0. simpl in Hst. rewrite Hkeys0 in Hst. simpl in Hst.
  destruct (iteration 0 st0) as [[st1 stop]| |] eqn:Hit;
    simpl in Hst; [|done..].
  apply iteration_parts in Hit
    as (value & st2 & modified & Hkey & Hvisit & Hplan & _ & ->).
  rewrite Hkeys0 in Hkey. injection Hkey as <-.
  apply visit_group_parts in Hvisit as (st3 & Hplan3 & _ & Hd3 & Hrun).
  rewrite Hgroups0, Hk in Hrun.
  destruct Hfit as [Hdint Hkint]. pose proof (Hkint k _ Hk) as Hkb.
  simpl in Hkb.
  apply range_machineSets_take in Hrun as [Hcount Hlook].
  - rewrite Hcount0 in Hcount, Hlook.
    rewrite length_take_le in Hcount by lia.
    replace (desiredWorkerCount st2 <=? 0) with true in Hst
      by (symmetry; apply Z.leb_le; lia).
    injection Hst as <-. intros p.
    by rewrite Hplan, Hplan3, Hlook, Hplan0, lookup_empty.
  - by eapply grouping_NoDup.
  - intros p _. rewrite Hplan0. apply lookup_empty.
  - rewrite Hcount0. lia.
  - lia.
Qed.

Lemma adjustMachineSets_lowest_group_witness :
  ∃ plan, adjustMachineSets scenarioA 1 = Ok plan ∧
    ∀ p, plan !! p
         = if bool_decide (p ∈ take (Z.to_nat 1) ["A"; "B"]%string)
           then Some (mkMachineSetInfo 2 (2 + 1))
           else None.
Proof.
  apply (adjustMachineSets_lowest_group scenarioA 1 2 ["A"; "B"]%string).
  - apply (bool_decide_unpack _). vm_compute. exact I.
  - apply (bool_decide_unpack _). vm_compute. exact I.
  - apply (bool_decide_unpack _). vm_compute. exact I.
  - reflexivity.
  - simpl. lia.
Defined.

(** ** The retry loop, whatever the command does *)

Lemma attempts_loop_failed max_retries wait_times command attempt rest st :
  command (calls st) = false →
  attempts_loop max_retries wait_times command (attempt :: rest) st
  = if (attempt <? max_retries)%nat
    then attempts_loop max_retries wait_times command rest
           (mkRetry (S (counter st))
              (slept st ++ [wait_time wait_times (counter st)])
              (S (calls st)))
    else (Exit1, mkRetry (counter st) (slept st) (S (calls st))).
Proof. intros Hfail. simpl. by rewrite Hfail. Qed.

Lemma attempts_loop_exhausts max_retries wait_times command n :
  ∀ first st,
    (∀ i, (calls st ≤ i < calls st + S n)%nat → command i = false) →
    (first + n)%nat = max_retries →
    attempts_loop max_retries wait_times command (seq first (S n)) st
    = (Exit1,
       mkRetry (counter st + n)
         (slept st ++ (wait_time wait_times <$> seq (counter st) n))
         (calls st + S n)).
Proof.
  induction n as [|n IH]; intros first st Hfail Hmax.
  - change (seq first 1) with [first].
    rewrite attempts_loop_failed by (apply Hfail; lia).
    replace (first <? max_retries)%nat with false
      by (symmetry; apply Nat.ltb_ge; lia).
    by rewrite Nat.add_0_r, app_nil_r, Nat.add_1_r.
  - change (seq first (S (S n))) with (first :: seq (S first) (S n)).
    rewrite attempts_loop_failed by (apply Hfail; lia).
    replace (first <? max_retries)%nat with true
      by (symmetry; apply Nat.ltb_lt; lia).
    rewrite IH.
    + cbn [counter slept calls]. f_equal. f_equal; [lia| |lia].
      rewrite <- (assoc_L (++)). done.
    + cbn [calls]. intros i Hi. apply Hfail. lia.
    + lia.
Qed.

Lemma first_success (command : nat -> bool) n :
  (∀ i, (i < n)%nat → command i = false) ∨
  ∃ k, (k < n)%nat ∧ fails_then_succeeds command k.
Proof.
  induction n as [|n [Hall|(k & Hk & Hok)]].
  - left. intros i Hi. lia.
  - destruct (command n) eqn:Hn.
    + right. exists n. split; [lia|]. by split.
    + left. intros i Hi. destruct (decide (i = n)) as [->|]; [done|].
      apply Hall. lia.
  - right. exists k. split; [lia|done].
Qed.

Lemma sum_seq_mono (f : nat -> nat) k n :
  (k ≤ n)%nat →
  (sum_list (f <$> seq 0 k) ≤ sum_list (f <$> seq 0 n))%nat.
Proof.
  intros Hk. replace n with (k + (n - k))%nat by lia.
  rewrite seq_app, fmap_app, sum_list_with_app. lia.
Qed.

Lemma retry_vm_exhausts command :
  (∀ i, (i < MAX_RETRIES)%nat → command i = false) →
  retry_vm command
  = (Exit1, mkRetry 125 (backoff_at WAIT_TIMES <$> seq 0 125) MAX_RETRIES).
Proof.
  intros Hfail. unfold retry_vm, retry.
  change (seq 1 MAX_RETRIES) with (seq 1 (S 125)).
  rewrite (attempts_loop_exhausts _ _ _ 125); simpl calls; simpl counter.
  - reflexivity.
  - intros i Hi. apply Hfail. unfold MAX_RETRIES. lia.
  - reflexivity.
Qed.

Lemma retry_vm_breaks command k :
  (k < MAX_RETRIES)%nat → fails_then_succeeds command k →
  retry_vm command
  = (Break, mkRetry k (backoff_at WAIT_TIMES <$> seq 0 k) (S k)).
Proof.
  intros Hk [Hfail Hok]. unfold retry_vm, retry.
  rewrite (attempts_loop_succeeds _ _ _ k); simpl; [|auto with lia..].
  do 2 f_equal. apply list_fmap_ext. intros _ i _. apply wait_time_backoff.
Qed.

(** X6: a command that fails on all of its [MAX_RETRIES] calls makes the
    loop end in [exit 1] after exactly 126 calls and 125 sleeps, 3611
    seconds in all: the "~60 minutes" of the script's comment. *)
Theorem retry_vm_exhausted command :
  (∀ i, (i < MAX_RETRIES)%nat → command i = false) →
  ∃ st, retry_vm command = (Exit1, st) ∧
        calls st = 126%nat ∧
        length (slept st) = 125%nat ∧
        total_sleep st = 3611%nat.
Proof.
  intros Hfail. rewrite (retry_vm_exhausts command Hfail).
  eexists. split; [done|]. split_and!; reflexivity.
Qed.

Lemma retry_vm_exhausted_witness :
  ∃ st, retry_vm (λ _, false) = (Exit1, st) ∧
        calls st = 126%nat ∧
        length (slept st) = 125%nat ∧
        total_sleep st = 3611%nat.
Proof. apply (retry_vm_exhausted (λ _, false)). reflexivity. Defined.

(** X7: whatever the command does, the loop ends by [break] or by
    [exit 1], never by running out of attempts; it calls the command at
    least once and at most 126 times, sleeps once between two calls and
    3611 seconds at most; and it ends by [break] exactly when one of the
    first 126 calls succeeds. *)
Theorem retry_vm_bounded command :
  ∃ ending st,
    retry_vm command = (ending, st) ∧
    ending ≠ RanOut ∧
    (1 ≤ calls st ≤ MAX_RETRIES)%nat ∧
    S (length (slept st)) = calls st ∧
    (total_sleep st ≤ 3611)%nat ∧
    (ending = Break ↔ ∃ k, (k < MAX_RETRIES)%nat ∧ command k = true).
Proof.
  destruct (first_success command MAX_RETRIES) as [Hall|(k & Hk & Hok)].
  - rewrite (retry_vm_exhausts command Hall).
    eexists _, _. split; [done|]. split_and!; try done.
    + simpl. unfold MAX_RETRIES. lia.
    + split; [done|]. intros (k & Hk & Htrue).
      rewrite (Hall k Hk) in Htrue. done.
  - rewrite (retry_vm_breaks command k Hk Hok).
    eexists _, _. split; [done|]. unfold MAX_RETRIES in *.
    split_and!; try done.
    + simpl. lia.
    + simpl. by rewrite length_fmap, length_seq.
    + unfold total_sleep. simpl.
      etransitivity; [apply (sum_seq_mono _ k 125); lia|].
      by vm_compute.
    + split; [|done]. intros _. exists k. split; [done|apply Hok].
Qed.

Lemma some_success (command : nat -> bool) :
  (∃ k, (k < MAX_RETRIES)%nat ∧ command k = true) →
  ∃ k, (k < MAX_RETRIES)%nat ∧ fails_then_succeeds command k.
Proof.
  intros (k & Hk & Htrue).
  destruct (first_success command MAX_RETRIES) as [Hall|?]; [|done].
  rewrite (Hall k Hk) in Htrue. done.
Qed.

(** X8: the script ends with status 1 at the first VM whose command fails
    126 times; the VMs listed after it are not checked. *)
Theorem check_vms_stops command vms1 vm vms2 :
  (∀ v, v ∈ vms1 → ∃ k, (k < MAX_RETRIES)%nat ∧ command v k = true) →
  (∀ i, (i < MAX_RETRIES)%nat → command vm i = false) →
  ∃ sleeps, check_vms command (vms1 ++ vm :: vms2) = (1%nat, sleeps) ∧
            length sleeps = S (length vms1) ∧
            ∀ command', (∀ v, v ∈ vms1 ++ [vm] → command' v = command v) →
              check_vms command' (vms1 ++ vm :: vms2) = (1%nat, sleeps).
Proof.
  intros Hpass Hfail. induction vms1 as [|v vms1 IH]; simpl.
  - rewrite (retry_vm_exhausts _ Hfail). eexists. split_and!; [done|done|].
    intros command' Heq. rewrite (Heq vm) by (by left).
    by rewrite (retry_vm_exhausts _ Hfail).
  - destruct (some_success (command v)) as (k & Hk & Hok).
    { apply Hpass. by left. }
    rewrite (retry_vm_breaks _ k Hk Hok).
    destruct IH as (sleeps & -> & Hlen & Hind).
    { intros v' Hv'. apply Hpass. by right. }
    eexists. split_and!; [done|simpl; by rewrite Hlen|].
    intros command' Heq. rewrite (Heq v) by (by left).
    rewrite (retry_vm_breaks _ k Hk Hok).
    rewrite (Hind command'); [done|].
    intros v' Hv'. apply Heq. by right.
Qed.

Lemma check_vms_stops_witness :
  ∃ sleeps,
    check_vms (λ v _, String.eqb v "vm-1") (["vm-1"] ++ "vm-2" :: ["vm-3"])
    = (1%nat, sleeps) ∧
    length sleeps = S (length ["vm-1"%string]) ∧
    ∀ command',
      (∀ v, v ∈ ["vm-1"] ++ ["vm-2"] →
            command' v = (λ _, String.eqb v "vm-1")) →
      check_vms command' (["vm-1"] ++ "vm-2" :: ["vm-3"]) = (1%nat, sleeps).
Proof.
  apply (check_vms_stops (λ v _, String.eqb v "vm-1")
           ["vm-1"%string] "vm-2"%string ["vm-3"%string]).
  - intros v ->%list_elem_of_singleton. exists 0%nat.
    split; [unfold MAX_RETRIES; lia|reflexivity].
  - reflexivity.
Defined.

(** X9: when the command of every VM succeeds within its 126 calls, every
    VM is checked and the script ends with status 0. *)
Theorem check_vms_passes command vms :
  (∀ v, v ∈ vms → ∃ k, (k < MAX_RETRIES)%nat ∧ command v k = true) →
  ∃ sleeps, check_vms command vms = (0%nat, sleeps) ∧
            length sleeps = length vms.
Proof.
  intros Hpass. induction vms as [|v vms IH]; simpl.
  - by exists [].
  - destruct (some_success (command v)) as (k & Hk & Hok).
    { apply Hpass. by left. }
    rewrite (retry_vm_breaks _ k Hk Hok).
    destruct IH as (sleeps & -> & Hlen).
    { intros v' Hv'. apply Hpass. by right. }
    eexists. split; [done|]. simpl. by rewrite Hlen.
Qed.

Lemma check_vms_passes_witness :
  ∃ sleeps,
    check_vms (λ _ i, (1 <=? i)%nat) ["vm-1"; "vm-2"]%string = (0%nat, sleeps) ∧
    length sleeps = length ["vm-1"; "vm-2"]%string.
Proof.
  apply (check_vms_passes (λ _ i, (1 <=? i)%nat) ["vm-1"; "vm-2"]%string).
  intros v _. exists 1%nat. split; [unfold MAX_RETRIES; lia|reflexivity].
Defined.

(** ** The poller and its timeout *)

(** X10: as long as [waitForNodes] does not time out, a longer timeout
    changes nothing: it returns the same result after the same number of
    list calls. *)
Theorem waitForNodes_more_time (api : nat -> NodeList) ticks ticks' :
  (ticks ≤ ticks')%nat →
  fst (waitForNodes api ticks) ≠ Some DeadlineExceeded →
  waitForNodes api ticks' = waitForNodes api ticks.
Proof.
  intros Hle Hres.
  destruct (waitForNodes_cases api ticks)
    as [(i & Hi & Hr & Hb & Heq)|[[_ Heq]|(i & err & Hi & Hf & Hb & Heq)]].
  - rewrite Heq. unfold waitForNodes. rewrite immediate_as_tick.
    apply poll_ticks_ready; [lia|done|]. intros j Hj. apply Hb. lia.
  - rewrite Heq in Hres. done.
  - rewrite Heq. unfold waitForNodes. rewrite immediate_as_tick.
    apply poll_ticks_failed; [lia|done|]. intros j Hj. apply Hb. lia.
Qed.

Lemma waitForNodes_more_time_witness :
  waitForNodes scenarioB 9 = waitForNodes scenarioB 5.
Proof.
  apply (waitForNodes_more_time scenarioB 5 9).
  - lia.
  - vm_compute. discriminate.
Defined.

(** X11: [waitForNodes] lists the nodes at least once and at most once
    more than there are ticks; every call but the last finds a node that
    is not ready; it stops at the first call that finds all nodes ready or
    fails, so a list error is not retried; and it times out only after
    the call of the last tick. *)
Theorem waitForNodes_calls (api : nat -> NodeList) ticks :
  (1 ≤ snd (waitForNodes api ticks) ≤ S ticks)%nat ∧
  (∀ j, (S j < snd (waitForNodes api ticks))%nat → unready_at api j) ∧
  (fst (waitForNodes api ticks) = Some DeadlineExceeded →
     snd (waitForNodes api ticks) = S ticks) ∧
  (fst (waitForNodes api ticks) ≠ Some DeadlineExceeded →
     ¬ unready_at api (pred (snd (waitForNodes api ticks)))).
Proof.
  assert (Hexcl : ∀ i, unready_at api i →
            ¬ ready_at api i ∧ ∀ err, api i ≠ ListFailed err).
  { intros i (items & Hitems & node & Hin & Hn). split.
    - intros (items' & Hitems' & Hall).
      assert (items' = items) as -> by congruence.
      rewrite (Hall _ Hin) in Hn. done.
    - intros err. congruence. }
  destruct (waitForNodes_cases api ticks)
    as [(i & Hi & Hr & Hb & ->)|[[Hall ->]|(i & err & Hi & Hf & Hb & ->)]];
    simpl.
  - split_and!; [lia|lia| |done|].
    + intros j Hj. apply Hb. lia.
    + intros _ Hu. by destruct (Hexcl i Hu).
  - split_and!; [lia|lia| |done|done].
    intros j Hj. apply Hall. lia.
  - split_and!; [lia|lia| |done|].
    + intros j Hj. apply Hb. lia.
    + intros _ Hu. destruct (Hexcl i Hu) as [_ Hne]. by apply (Hne err).
Qed.

(** ** The orchestrator over a fleet *)

(** X12: when the machine client cannot be created, the run ends in
    [log.Fatalf] before any machine set is read or edited. Otherwise, for
    a fleet with at least one machine set and a positive number of
    additional workers, the run does not panic; it edits the machine sets
    once with a plan whose increments sum to that number, and, only when
    [GC] is set, once more with the same plan to restore it. *)
Theorem OrchestrateWorkload_scales {MachineDetails : Type}
    (c : Collaborators MachineDetails) (scaleConfig : ScaleConfig) :
  grouping (machineSetDetails c) →
  fits_int (machineSetDetails c) (AdditionalWorkerNodes scaleConfig) →
  machineSetDetails c ≠ ∅ →
  0 < AdditionalWorkerNodes scaleConfig →
  (∀ err,
     AWSScenario_OrchestrateWorkload (Some err) c scaleConfig
     = Ok (RunFatal ("error creating machine API client: " +:+ err))) ∧
  ∃ plan events,
    AWSScenario_OrchestrateWorkload None c scaleConfig
    = Ok (RunReturns events) ∧
    plan_sum plan = AdditionalWorkerNodes scaleConfig ∧
    (∀ p info, plan !! p = Some info →
       p ∈ group (machineSetDetails c) (prevReplicas info) ∧
       prevReplicas info < currentReplicas info) ∧
    edits events
    = (plan, true) :: if GC scaleConfig then [(plan, false)] else [].
Proof.
  intros Hg Hfit Hne Hpos. split; [reflexivity|].
  destruct (positive_plan _ _ Hg Hfit Hne Hpos)
    as (plan & Hplan & Hsum & _ & Hentries).
  exists plan.
  unfold AWSScenario_OrchestrateWorkload, OrchestrateWorkload.
  rewrite Hplan. simpl.
  eexists. split; [reflexivity|]. split_and!; [done|done|].
  unfold stop_measurements, after_stop.
  destruct (measurementsStop c), (GC scaleConfig); reflexivity.
Qed.

Lemma OrchestrateWorkload_scales_witness :
  (∀ err,
     AWSScenario_OrchestrateWorkload (Some err)
       (mkCollaborators unit scenarioA tt tt "ami" None)
       (mkScaleConfig 3 true "local")
     = Ok (RunFatal ("error creating machine API client: " +:+ err))) ∧
  ∃ plan events,
    AWSScenario_OrchestrateWorkload None
      (mkCollaborators unit scenarioA tt tt "ami" None)
      (mkScaleConfig 3 true "local") = Ok (RunReturns events) ∧
    plan_sum plan = 3 ∧
    (∀ p info, plan !! p = Some info →
       p ∈ group scenarioA (prevReplicas info) ∧
       prevReplicas info < currentReplicas info) ∧
    edits events = (plan, true) :: [(plan, false)].
Proof.
  destruct scenarioA_input as (Hg & Hfit & Hne).
  apply (OrchestrateWorkload_scales
           (mkCollaborators unit scenarioA tt tt "ami" None)
           (mkScaleConfig 3 true "local") Hg Hfit Hne).
  simpl. lia.
Defined.

(** ** The index sub-command *)

Lemma scrape_clients_spec results :
  ∀ client rc,
    scrape_clients results client rc
    = (CallScrapeJobsMetrics <$> seq client (length results),
       if existsb scrape_failed results then 1 else rc).
Proof.
  induction results as [|result results IH]; intros client rc; simpl; [done|].
  rewrite IH. destruct result; simpl; [|done].
  by destruct (existsb scrape_failed results).
Qed.

Lemma scraped_app l1 l2 : scraped (l1 ++ l2) = scraped l1 ++ scraped l2.
Proof.
  induction l1 as [|e l1 IH]; simpl; [done|].
  destruct e; simpl; by rewrite ?IH.
Qed.

Lemma scraped_scrapes clients :
  scraped (CallScrapeJobsMetrics <$> clients) = clients.
Proof. induction clients as [|c clients IH]; csimpl; by rewrite ?IH. Qed.

Lemma tarballs_app l1 l2 : tarballs (l1 ++ l2) = tarballs l1 ++ tarballs l2.
Proof.
  induction l1 as [|e l1 IH]; simpl; [done|].
  destruct e; simpl; by rewrite ?IH.
Qed.

Lemma tarballs_scrapes clients :
  tarballs (CallScrapeJobsMetrics <$> clients) = [].
Proof. induction clients as [|c clients IH]; csimpl; by rewrite ?IH. Qed.

Lemma first_indexer (existing : list IndexerConfig) new :
  (existing ++ [new]) !! O = Some (default new (head existing)).
Proof. by destruct existing. Qed.

(** The run up to the tarball, when the cluster metadata and the
    Prometheus information are obtained. *)
Lemma index_run_scrapes f existing a url token :
  getClusterMetadata a = None →
  (if is_empty_string (ix_metricsEndpoint f)
   then getPrometheus a
   else inl (""%string, ""%string)) = inl (url, token) →
  ∃ events ending,
    index_run f existing a
    = mkIndexRun
        (([CallGetClusterMetadata]
          ++ (if is_empty_string (ix_metricsEndpoint f)
              then [CallGetPrometheus] else [])
          ++ [CallProcessMetricsScraperConfig url token]
          ++ (CallScrapeJobsMetrics
                <$> seq 0 (length (scrapeJobsMetrics a))))
         ++ events)
        (existing ++ [new_indexer f]) ending ∧
    events
    = (if is_local (ic_Type (default (new_indexer f) (head existing)))
          && negb (is_empty_string (ix_tarballName f))
       then [CallCreateTarball (default (new_indexer f) (head existing))]
       else []) ∧
    ending
    = match (if is_local (ic_Type (default (new_indexer f) (head existing)))
                && negb (is_empty_string (ix_tarballName f))
             then createTarball a else None) with
      | Some err => IndexFatal err
      | None => IndexExit (if existsb scrape_failed (scrapeJobsMetrics a)
                           then 1 else 0)
      end.
Proof.
  intros Hmeta Hprom. unfold index_run. rewrite Hmeta, Hprom.
  rewrite scrape_clients_spec, first_indexer.
  destruct (is_local _ && negb _).
  - destruct (createTarball a); eexists _, _; split_and!; reflexivity.
  - eexists _, _. split_and!; [|reflexivity..]. by rewrite app_nil_r.
Qed.

(** X13: when no call is fatal, the exit status of the index command is 1
    if the scrape of at least one Prometheus client fails and 0 otherwise,
    and every client is scraped, in order, whether an earlier one failed
    or not. *)
Theorem index_exit_status f existing a url token :
  getClusterMetadata a = None →
  (if is_empty_string (ix_metricsEndpoint f)
   then getPrometheus a
   else inl (""%string, ""%string)) = inl (url, token) →
  createTarball a = None →
  ir_end (index_run f existing a)
  = IndexExit (if existsb scrape_failed (scrapeJobsMetrics a) then 1 else 0) ∧
  scraped (ir_events (index_run f existing a))
  = seq 0 (length (scrapeJobsMetrics a)).
Proof.
  intros Hmeta Hprom Htar.
  destruct (index_run_scrapes f existing a url token Hmeta Hprom)
    as (events & ending & -> & -> & ->). simpl. split.
  - rewrite Htar. by destruct (is_local _ && negb _).
  - rewrite scraped_app.
    change (scraped (?e :: ?l)) with (scraped l).
    rewrite scraped_app.
    destruct (is_empty_string (ix_metricsEndpoint f));
      destruct (is_local _ && negb _); simpl;
      rewrite ?scraped_scrapes, ?app_nil_r; reflexivity.
Qed.

Lemma index_exit_status_witness :
  ir_end (index_run (mkIndexFlags "u" "" "" "collected-metrics" "" "")
            [] (mkIndexAnswers None (inl ("url"%string, "tok"%string))
                  [None; Some "e"%string; None] None))
  = IndexExit (if existsb scrape_failed [None; Some "e"%string; None]
               then 1 else 0) ∧
  scraped (ir_events
             (index_run (mkIndexFlags "u" "" "" "collected-metrics" "" "")
                [] (mkIndexAnswers None (inl ("url"%string, "tok"%string))
                      [None; Some "e"%string; None] None)))
  = seq 0 (length [None; Some "e"%string; None]).
Proof.
  apply (index_exit_status
           (mkIndexFlags "u" "" "" "collected-metrics" "" "") []
           (mkIndexAnswers None (inl ("url"%string, "tok"%string))
              [None; Some "e"%string; None] None)
           "url" "tok"); reflexivity.
Defined.

(** X14: the index command creates a tarball exactly when the first
    indexer of [ConfigSpec.Indexers], the one that was there before the
    run if there was any, else the one that the run appends, is a local
    indexer and [--tarball-name] is not empty; the tarball is made from
    the configuration of that first indexer. *)
Theorem index_tarball f existing a url token :
  getClusterMetadata a = None →
  (if is_empty_string (ix_metricsEndpoint f)
   then getPrometheus a
   else inl (""%string, ""%string)) = inl (url, token) →
  tarballs (ir_events (index_run f existing a))
  = if is_local (ic_Type (default (new_indexer f) (head existing)))
       && negb (is_empty_string (ix_tarballName f))
    then [default (new_indexer f) (head existing)]
    else [].
Proof.
  intros Hmeta Hprom.
  destruct (index_run_scrapes f existing a url token Hmeta Hprom)
    as (events & ending & -> & -> & _). simpl.
  rewrite tarballs_app.
  assert (Hnone : tarballs
            ((if is_empty_string (ix_metricsEndpoint f)
              then [CallGetPrometheus] else [])
             ++ CallProcessMetricsScraperConfig url token
                :: (CallScrapeJobsMetrics
                      <$> seq 0 (length (scrapeJobsMetrics a)))) = []).
  { rewrite tarballs_app. simpl. rewrite tarballs_scrapes.
    by destruct (is_empty_string _). }
  rewrite Hnone. simpl. by destruct (is_local _ && negb _).
Qed.

Lemma index_tarball_witness :
  tarballs (ir_events
              (index_run (mkIndexFlags "u" "es" "idx" "dir" "out" "")
                 [] (mkIndexAnswers None (inl ("url"%string, "tok"%string))
                       [None] None)))
  = if is_local
         (ic_Type (default
                     (new_indexer (mkIndexFlags "u" "es" "idx" "dir" "out" ""))
                     (head [])))
       && negb (is_empty_string
                  (ix_tarballName (mkIndexFlags "u" "es" "idx" "dir" "out" "")))
    then [default (new_indexer (mkIndexFlags "u" "es" "idx" "dir" "out" ""))
            (head [])]
    else [].
Proof.
  apply (index_tarball (mkIndexFlags "u" "es" "idx" "dir" "out" "") []
           (mkIndexAnswers None (inl ("url"%string, "tok"%string)) [None] None)
           "url" "tok"); reflexivity.
Defined.

(** X15: with both [--es-server] and [--es-index] given and no indexer
    configured before, the command appends an Elastic indexer and never
    creates a tarball, whatever [--tarball-name] is. *)
Theorem index_elastic_no_tarball f a :
  is_empty_string (ix_esServer f) = false →
  is_empty_string (ix_esIndex f) = false →
  tarballs (ir_events (index_run f [] a)) = [] ∧
  (getClusterMetadata a = None →
   ir_indexers (index_run f [] a)
   = [mkIndexerConfig ElasticIndexer [ix_esServer f] (ix_esIndex f) "" ""]).
Proof.
  intros Hserver Hindex.
  assert (Hnew : new_indexer f
                 = mkIndexerConfig ElasticIndexer [ix_esServer f]
                     (ix_esIndex f) "" "").
  { unfold new_indexer. by rewrite Hserver, Hindex. }
  unfold index_run. destruct (getClusterMetadata a); [done|].
  rewrite Hnew. simpl.
  destruct (if is_empty_string (ix_metricsEndpoint f)
            then getPrometheus a else inl (""%string, ""%string))
    as [[url token]|err]; [|done].
  rewrite scrape_clients_spec. simpl. split; [|done].
  change (tarballs (?e :: ?l)) with (tarballs l).
  rewrite tarballs_app. simpl. rewrite tarballs_scrapes, app_nil_r.
  by destruct (is_empty_string (ix_metricsEndpoint f)).
Qed.

Lemma index_elastic_no_tarball_witness :
  tarballs (ir_events
              (index_run (mkIndexFlags "u" "es" "idx" "dir" "out" "")
                 [] (mkIndexAnswers None (inl ("url"%string, "tok"%string))
                       [None] None))) = [] ∧
  (getClusterMetadata
     (mkIndexAnswers None (inl ("url"%string, "tok"%string)) [None] None)
   = None →
   ir_indexers
     (index_run (mkIndexFlags "u" "es" "idx" "dir" "out" "")
        [] (mkIndexAnswers None (inl ("url"%string, "tok"%string))
              [None] None))
   = [mkIndexerConfig ElasticIndexer ["es"%string] "idx" "" ""]).
Proof.
  apply (index_elastic_no_tarball
           (mkIndexFlags "u" "es" "idx" "dir" "out" "")
           (mkIndexAnswers None (inl ("url"%string, "tok"%string))
              [None] None)); reflexivity.
Defined.

(** ** The root command *)

Lemma envVars_other (f : RootFlags) (k : string) :
  k ∉ ["UUID"; "QPS"; "BURST"; "GC"; "GC_METRICS"; "LOCAL_INDEXING";
        "ALERTS"; "ES_SERVER"; "ES_INDEX"]%string →
  envVars f !! k = None.
Proof.
  intros Hk. unfold envVars.
  destruct (rf_alerting f), (is_empty_string (rf_metricsEndpoint f));
    repeat (rewrite lookup_insert_ne
              by (intros <-; apply Hk; repeat constructor));
    apply lookup_empty.
Qed.

(** X16: [PersistentPreRun] checks the health of the cluster exactly when
    [--check-health] is set, the workload is not extracted, and the command
    is neither [version] nor [cluster-health]; so it does before [index]
    as before every workload. *)
Theorem health_check_condition name f a env :
  CallClusterHealthCheck ∈ pr_events (PersistentPreRun name f a env) ↔
  name ≠ "version"%string ∧ rf_extract f = false ∧
  rf_checkHealth f = true ∧ name ≠ "cluster-health"%string.
Proof.
  unfold PersistentPreRun.
  destruct (String.eqb_spec name "version") as [->|Hversion]; simpl.
  { rewrite elem_of_nil. intuition congruence. }
  destruct (rf_extract f); simpl.
  { destruct (extractWorkload a); simpl;
      rewrite !elem_of_cons, elem_of_nil; intuition congruence. }
  destruct (rf_checkHealth f); simpl.
  - destruct (String.eqb_spec name "cluster-health") as [->|Hhealth]; simpl.
    + rewrite !elem_of_cons, elem_of_nil. intuition congruence.
    + rewrite !elem_of_cons. intuition congruence.
  - rewrite !elem_of_cons, elem_of_nil. intuition congruence.
Qed.

(** X17: [PersistentPreRun] exports [ES_SERVER] and [ES_INDEX] from the
    flags only when no metrics endpoint is given, and leaves them as they
    were otherwise; it always exports [UUID], [QPS], [BURST], [GC],
    [GC_METRICS], [LOCAL_INDEXING] and [ALERTS], and touches no other
    variable. For [version], and when the workload is extracted, it
    exports nothing. *)
Theorem exported_environment name f a env :
  (name = "version"%string ∨ rf_extract f = true →
   pr_env (PersistentPreRun name f a env) = env) ∧
  (name ≠ "version"%string → rf_extract f = false →
   let env' := pr_env (PersistentPreRun name f a env) in
   env' !! "ES_SERVER"%string
   = (if is_empty_string (rf_metricsEndpoint f)
      then Some (rf_esServer f) else env !! "ES_SERVER"%string) ∧
   env' !! "ES_INDEX"%string
   = (if is_empty_string (rf_metricsEndpoint f)
      then Some (rf_esIndex f) else env !! "ES_INDEX"%string) ∧
   env' !! "UUID"%string = Some (rf_uuid f) ∧
   env' !! "QPS"%string = Some (pretty (rf_QPS f)) ∧
   env' !! "BURST"%string = Some (pretty (rf_burst f)) ∧
   env' !! "GC"%string = Some (sprint_bool (rf_gc f)) ∧
   env' !! "GC_METRICS"%string = Some (sprint_bool (rf_gcMetrics f)) ∧
   env' !! "LOCAL_INDEXING"%string
   = Some (sprint_bool (rf_localIndexing f)) ∧
   env' !! "ALERTS"%string
   = Some (if rf_alerting f then "alerts.yml" else "")%string ∧
   ∀ k, k ∉ ["UUID"; "QPS"; "BURST"; "GC"; "GC_METRICS"; "LOCAL_INDEXING";
              "ALERTS"; "ES_SERVER"; "ES_INDEX"]%string →
        env' !! k = env !! k).
Proof.
  unfold PersistentPreRun. split.
  - intros [->|Hextract]; simpl; [done|].
    rewrite Hextract.
    destruct (String.eqb name "version"); [done|].
    by destruct (extractWorkload a).
  - intros Hversion Hextract.
    destruct (String.eqb_spec name "version") as [?|_]; [done|].
    rewrite Hextract. simpl.
    split_and!;
      try (intros k Hk; by rewrite lookup_union_r by (by apply envVars_other));
      unfold envVars, sprint_int;
      destruct (rf_alerting f), (is_empty_string (rf_metricsEndpoint f));
      first [ by (erewrite lookup_union_Some_l; [done|];
                  repeat (rewrite lookup_insert_ne by done);
                  apply lookup_insert_eq)
            | by (rewrite lookup_union_r; [done|];
                  repeat (rewrite lookup_insert_ne by done);
                  apply lookup_empty) ].
Qed.

Lemma exported_environment_witness :
  (("density" = "version")%string
   ∨ rf_extract (mkRootFlags "es" "idx" false "" true true "u" 20 20 true
                   false false) = true →
   pr_env (PersistentPreRun "density"
             (mkRootFlags "es" "idx" false "" true true "u" 20 20 true
                false false)
             (mkPreRunAnswers None None) ∅) = ∅) ∧
  (("density" ≠ "version")%string →
   rf_extract (mkRootFlags "es" "idx" false "" true true "u" 20 20 true
                 false false) = false →
   let env' :=
     pr_env (PersistentPreRun "density"
               (mkRootFlags "es" "idx" false "" true true "u" 20 20 true
                  false false)
               (mkPreRunAnswers None None) ∅) in
   env' !! "ES_SERVER"%string = Some "es"%string ∧
   env' !! "ES_INDEX"%string = Some "idx"%string ∧
   env' !! "UUID"%string = Some "u"%string ∧
   env' !! "QPS"%string = Some (pretty 20) ∧
   env' !! "BURST"%string = Some (pretty 20) ∧
   env' !! "GC"%string = Some (sprint_bool true) ∧
   env' !! "GC_METRICS"%string = Some (sprint_bool false) ∧
   env' !! "LOCAL_INDEXING"%string = Some (sprint_bool false) ∧
   env' !! "ALERTS"%string = Some "alerts.yml"%string ∧
   ∀ k, k ∉ ["UUID"; "QPS"; "BURST"; "GC"; "GC_METRICS"; "LOCAL_INDEXING";
              "ALERTS"; "ES_SERVER"; "ES_INDEX"]%string →
        env' !! k = (∅ : gmap string string) !! k).
Proof.
  exact (exported_environment "density"
           (mkRootFlags "es" "idx" false "" true true "u" 20 20 true
              false false)
           (mkPreRunAnswers None None) ∅).
Defined.
